(** * Local-Captcha: a shallow embedding of [captcha.py] and [web_api.py]

    The development follows the two source files statement by statement.

    - Python floats are idealised as exact rationals ([Q]); [int(...)] is
      truncation toward zero, [min]/[max] are Python's first-wins versions.
    - The module-level [random] generator is a tape of unit-interval samples
      with a read position; every call to [random.random], [random.uniform]
      or [random.randint] consumes one cell.
    - Pillow images are a size together with a total pixel function.  The
      operations whose pixel arithmetic is fixed by Pillow (point, ImageChops,
      alpha_composite, paste, rectangle, merge/split) are written out; the
      rasterisers (glyph drawing, rotation, mesh warp, blur, Gaussian noise,
      line drawing) are the fields of a [Backend].
    - Exceptions and the state (random tape, the noise primitive's own
      generator, the log of buffers created by [Image.new]) are threaded by a
      small state-and-error monad. *)

From Stdlib Require Import ZArith QArith Qround Lia Lqa List String Ascii Bool.
From Stdlib Require Import DecimalString DecimalZ.
Import ListNotations.
Local Open Scope Z_scope.

(* ===================================================================== *)
(** ** Python numerics *)
(* ===================================================================== *)

Module Py.

(** [int(q)] on a float: truncation toward zero. *)
Definition py_int (q : Q) : Z := Z.quot (Qnum q) (Z.pos (Qden q)).

Definition Qltb (a b : Q) : bool := negb (Qle_bool b a).

(** [min(a, b)]: the first argument unless the second is strictly smaller. *)
Definition py_min (a b : Q) : Q := if Qltb b a then b else a.

(** [max(a, b)]: the first argument unless the second is strictly larger. *)
Definition py_max (a b : Q) : Q := if Qltb a b then b else a.

(** [range(n)] *)
Definition range (n : Z) : list Z := map Z.of_nat (seq 0 (Z.to_nat n)).

(** [range(start, stop, step)]; [None] stands for the [ValueError] that
    Python raises for a zero step. *)
Definition range3 (start stop step : Z) : option (list Z) :=
  if step =? 0 then None
  else if 0 <? step then
    Some (map (fun k => start + Z.of_nat k * step)
              (seq 0 (Z.to_nat ((stop - start + step - 1) / step))))
  else
    Some (map (fun k => start + Z.of_nat k * step)
              (seq 0 (Z.to_nat ((start - stop - step - 1) / (- step))))).

(** [str(n)] on an integer. *)
Definition str (n : Z) : string := NilZero.string_of_int (Z.to_int n).

(** [''.join(parts)] *)
Definition join (parts : list string) : string :=
  fold_right String.append EmptyString parts.

End Py.
Import Py.

(* ===================================================================== *)
(** ** Exceptions, world and the effect monad *)
(* ===================================================================== *)

(** [ValueError] is what Pillow and the Python runtime raise on the paths
    modelled here.  [ValidationError] is the error named by the
    specification; no statement of the source raises it. *)
Inductive exn : Type :=
| ValueError (msg : string)
| ValidationError.

Inductive outcome (T : Type) : Type :=
| Ok (v : T)
| Raised (e : exn).
Arguments Ok {T} v.
Arguments Raised {T} e.

Record World : Type := mkWorld {
  tape   : nat -> Q;                 (* samples of the module-level generator *)
  pos    : nat;                      (* next unread cell of the tape *)
  c_rand : N;                        (* generator state of Image.effect_noise *)
  allocs : list (string * Z * Z)     (* buffers created by Image.new, newest first *)
}.

Definition M (T : Type) : Type := World -> outcome T * World.

Definition ret {T} (v : T) : M T := fun s => (Ok v, s).

Definition bind {T U} (m : M T) (k : T -> M U) : M U :=
  fun s => match m s with
           | (Ok v, s') => k v s'
           | (Raised e, s') => (Raised e, s')
           end.

Definition raise {T} (e : exn) : M T := fun s => (Raised e, s).

Notation "x <- m ;; k" := (bind m (fun x => k))
  (at level 61, m at next level, right associativity).

(** [for x in xs: acc = body(x, acc)] *)
Fixpoint for_each {X S} (xs : list X) (body : X -> S -> M S) (acc : S) : M S :=
  match xs with
  | [] => ret acc
  | x :: rest => acc' <- body x acc ;; for_each rest body acc'
  end.

(** *** The [random] module *)

Definition advance (s : World) : World :=
  mkWorld (tape s) (S (pos s)) (c_rand s) (allocs s).

(** [random.random()] *)
Definition random : M Q := fun s => (Ok (tape s (pos s)), advance s).

(** [random.uniform(a, b)] is [a + (b - a) * random()]. *)
Definition uniform (a b : Q) : M Q :=
  u <- random ;; ret (a + (b - a) * u)%Q.

(** [random.randint(a, b)]: [a + floor(u * (b - a + 1))], and a [ValueError]
    on an empty range. *)
Definition randint (a b : Z) : M Z :=
  if b <? a then raise (ValueError "empty range for randrange()")
  else u <- random ;; ret (a + Qfloor (u * inject_Z (b - a + 1))).

(** Every cell of a tape lies in the unit interval [0, 1). *)
Definition tape_valid (s : World) : Prop :=
  forall n, (0 <= tape s n /\ tape s n < 1)%Q.

(* ===================================================================== *)
(** ** Pillow images *)
(* ===================================================================== *)

Record RGBA : Type := mkRGBA { chR : Z; chG : Z; chB : Z; chA : Z }.

Record Img (P : Type) : Type := mkImg { iw : Z; ih : Z; px : Z -> Z -> P }.
Arguments mkImg {P} iw ih px.
Arguments iw {P} i.
Arguments ih {P} i.
Arguments px {P} i x y.

(** 8-bit saturation (Pillow's [CLIP8]). *)
Definition clip8 (v : Z) : Z := Z.max 0 (Z.min 255 v).

Definition log_alloc (a : string * Z * Z) (s : World) : World :=
  mkWorld (tape s) (pos s) (c_rand s) (a :: allocs s).

(** [Image.new(mode, (w, h), fill)]: Pillow rejects a negative size before
    it allocates. *)
Definition image_new {P} (mode : string) (w h : Z) (fill : P) : M (Img P) :=
  fun s =>
    if (w <? 0) || (h <? 0)
    then (Raised (ValueError "Width and height must be >= 0"), s)
    else (Ok (mkImg w h (fun _ _ => fill)), log_alloc (mode, w, h) s).

(** [im.point(f)] on a mode-L image: a 256-entry table of bytes. *)
Definition point (f : Z -> Z) (im : Img Z) : Img Z :=
  mkImg (iw im) (ih im) (fun x y => clip8 (f (px im x y))).

(** [ImageChops.add], [ImageChops.subtract] (scale 1, offset 0) and
    [ImageChops.lighter]. *)
Definition chops_add (a b : Img Z) : Img Z :=
  mkImg (iw a) (ih a) (fun x y => clip8 (px a x y + px b x y)).

Definition chops_subtract (a b : Img Z) : Img Z :=
  mkImg (iw a) (ih a) (fun x y => clip8 (px a x y - px b x y)).

Definition chops_lighter (a b : Img Z) : Img Z :=
  mkImg (iw a) (ih a) (fun x y => Z.max (px a x y) (px b x y)).

(** [im.split()[k]] and [Image.merge("RGBA", (r, g, b, a))]. *)
Definition band (sel : RGBA -> Z) (im : Img RGBA) : Img Z :=
  mkImg (iw im) (ih im) (fun x y => sel (px im x y)).

Definition merge (r g b a : Img Z) : Img RGBA :=
  mkImg (iw r) (ih r) (fun x y => mkRGBA (px r x y) (px g x y) (px b x y) (px a x y)).

(** Pillow's rounded division by 255, [SHIFTFORDIV255]. *)
Definition shift_div255 (a : Z) : Z := Z.shiftr (Z.shiftr a 8 + a) 8.

(** One pixel of [Image.alpha_composite(dst, src)] (libImaging,
    AlphaComposite.c, 7 bits of extra precision). *)
Definition composite_px (dst src : RGBA) : RGBA :=
  if chA src =? 0 then dst
  else
    let blend := chA dst * (255 - chA src) in
    let outa255 := chA src * 255 + blend in
    let coef1 := chA src * 255 * 255 * 128 / outa255 in
    let coef2 := 255 * 128 - coef1 in
    let mix s d :=
      Z.shiftr (shift_div255 (s * coef1 + d * coef2 + Z.shiftl 128 7)) 7 in
    mkRGBA (mix (chR src) (chR dst)) (mix (chG src) (chG dst))
           (mix (chB src) (chB dst)) (shift_div255 (outa255 + 128)).

Definition alpha_composite (dst src : Img RGBA) : Img RGBA :=
  mkImg (iw dst) (ih dst) (fun x y => composite_px (px dst x y) (px src x y)).

(** [BLEND8(mask, out, in)] of libImaging's Paste.c. *)
Definition blend8 (mask dst src : Z) : Z :=
  shift_div255 (dst * (255 - mask) + src * mask + 128).

(** [layer.paste(im, (x0, y0), im)]: inside the box of [im], blend every
    channel with the alpha band of [im] as the matte. *)
Definition paste (layer im : Img RGBA) (x0 y0 : Z) : Img RGBA :=
  mkImg (iw layer) (ih layer) (fun x y =>
    if (x0 <=? x) && (x <? x0 + iw im) && (y0 <=? y) && (y <? y0 + ih im)
    then let s := px im (x - x0) (y - y0) in
         let d := px layer x y in
         let m := chA s in
         mkRGBA (blend8 m (chR d) (chR s)) (blend8 m (chG d) (chG s))
                (blend8 m (chB d) (chB s)) (blend8 m (chA d) (chA s))
    else px layer x y).

(** [ImageDraw.rectangle([x0, y0, x1, y1], fill)], both corners included. *)
Definition draw_rectangle {P} (im : Img P) (x0 y0 x1 y1 : Z) (fill : P) : Img P :=
  mkImg (iw im) (ih im) (fun x y =>
    if (x0 <=? x) && (x <=? x1) && (y0 <=? y) && (y <=? y1)
    then fill else px im x y).

(** [ImageDraw.point((x0, y0), fill)] and pixel-access assignment. *)
Definition draw_point {P} (im : Img P) (x0 y0 : Z) (fill : P) : Img P :=
  mkImg (iw im) (ih im) (fun x y =>
    if (x =? x0) && (y =? y0) then fill else px im x y).

(** Fonts: a TrueType face at a size, or Pillow's built-in bitmap font. *)
Inductive font : Type :=
| TrueType (path : string) (size : Z)
| DefaultFont.

Definition box : Type := Z * Z * Z * Z.
Definition quad : Type := Z * Z * Z * Z * Z * Z * Z * Z.

(** The rasterisers of Pillow that the source calls and whose pixels no
    property below depends on. *)
Class Backend : Type := {
  (* ImageFont.truetype(path, size) loads without raising *)
  font_available : string -> Z -> bool;
  (* ImageDraw.text(xy, ch, font, fill): the canvas after drawing *)
  text_px : Img RGBA -> Z * Z -> ascii -> font -> RGBA -> Z -> Z -> RGBA;
  (* size of im.rotate(angle, expand=1) *)
  rotate_size : Q -> Z * Z -> Z * Z;
  (* pixels of im.rotate(angle, BICUBIC, expand) *)
  rotate_px : Img RGBA -> Q -> bool -> Z -> Z -> RGBA;
  (* hasattr(Image, "MESH") *)
  mesh_available : bool;
  (* im.transform(size, MESH, mesh, BICUBIC); None when it raises *)
  mesh_px : Img RGBA -> Z * Z -> list (box * quad) -> option (Z -> Z -> RGBA);
  (* im.filter(GaussianBlur(radius)) *)
  blur_px : Img RGBA -> Q -> Z -> Z -> RGBA;
  (* Image.effect_noise(size, sigma): reads and advances its own generator;
     None when it raises *)
  effect_noise_px : Z * Z -> Z -> N -> option ((Z -> Z -> Z) * N);
  (* pixels covered by ImageDraw.line((x0, y0, x1, y1), width) *)
  line_px : box -> Z -> Z -> Z -> bool
}.

(* ===================================================================== *)
(** ** captcha.py *)
(* ===================================================================== *)

Section Captcha.
Context `{BK : Backend}.

(** Wrappers giving the backend's pixels the size Pillow documents. *)

Definition draw_text (im : Img RGBA) (xy : Z * Z) (ch : ascii) (f : font)
    (fill : RGBA) : Img RGBA :=
  mkImg (iw im) (ih im) (text_px im xy ch f fill).

Definition rotate (im : Img RGBA) (angle : Q) (expand : bool) : Img RGBA :=
  if expand
  then let '(w', h') := rotate_size angle (iw im, ih im) in
       mkImg w' h' (rotate_px im angle true)
  else mkImg (iw im) (ih im) (rotate_px im angle false).

Definition gaussian_blur (im : Img RGBA) (radius : Q) : Img RGBA :=
  mkImg (iw im) (ih im) (blur_px im radius).

Definition draw_line (im : Img RGBA) (xy : box) (fill : RGBA) (width : Z)
    : Img RGBA :=
  mkImg (iw im) (ih im) (fun x y =>
    if line_px xy width x y then fill else px im x y).

Definition set_c_rand (c : N) (s : World) : World :=
  mkWorld (tape s) (pos s) c (allocs s).

(** [Image.effect_noise((w, h), sigma)] under the source's [try]: [None]
    when the primitive raises.  The call passes nothing of the [random]
    module: Pillow's Gaussian noise draws from the C library's generator,
    whose state is [c_rand]. *)
Definition effect_noise (w h sigma : Z) : M (option (Img Z)) :=
  fun s => match effect_noise_px (w, h) sigma (c_rand s) with
           | Some (f, c') =>
               (Ok (Some (mkImg w h (fun x y => clip8 (f x y)))), set_c_rand c' s)
           | None => (Ok None, s)
           end.

(** *** Fonts *)

Definition candidates : list string :=
  [ "arial.ttf"%string;
    "/usr/share/fonts/truetype/dejavu/DejaVuSans.ttf"%string;
    "/usr/share/fonts/truetype/liberation/LiberationSans-Regular.ttf"%string ].

Fixpoint first_font (ps : list string) (size : Z) : font :=
  match ps with
  | [] => DefaultFont
  | p :: rest =>
      if font_available p size then TrueType p size else first_font rest size
  end.

Definition _load_font (size : Z) : font := first_font candidates size.

(** *** Parameters *)

Record Params : Type := mkParams {
  text          : string;
  width         : option Z;
  height        : Z;
  font_path     : option string;
  font_size     : Z;
  mesh_steps    : Z * Z;
  grid_spacing  : Z;
  distortion    : Q;
  noise         : Q;
  grid_strength : Q;
  rotation      : Q;
  protect_text  : bool
}.

Definition clamp01 (v : Q) : Q := py_max 0 (py_min 1 v).

Definition len (t : string) : Z := Z.of_nat (String.length t).

Definition resolve_width (p : Params) : Z :=
  match width p with
  | None => Z.max 220 (py_int (inject_Z (len (text p) * font_size p) * 0.6) + 60)
  | Some v => v
  end.

Definition load_font (p : Params) : font :=
  match font_path p with
  | Some path =>
      if (String.length path =? 0)%nat then _load_font (font_size p)
      else if font_available path (font_size p)
           then TrueType path (font_size p)
           else _load_font (font_size p)
  | None => _load_font (font_size p)
  end.

(** *** Text rendering (source lines 77-92) *)

Definition ch_w (font_size : Z) : Z := py_int (inject_Z font_size * 1.05) + 8.

Definition y_offset (h font_size : Z) : Z := Z.max 0 ((h - font_size) / 2 - 2).

Definition max_angle : Q := 12.

Definition advance_x (font_size : Z) : Z := py_int (inject_Z font_size * 0.68).

(** The body of the loop up to the rotation: the glyph of one character. *)
Definition render_glyph (f : font) (h font_size : Z) (rotation : Q) (ch : ascii)
    : M (Img RGBA) :=
  ch_img <- image_new "RGBA" (ch_w font_size) h (mkRGBA 0 0 0 0) ;;
  let ch_img :=
    draw_text ch_img (4, y_offset h font_size) ch f (mkRGBA 10 10 10 255) in
  angle <- uniform (- max_angle * rotation)%Q (max_angle * rotation)%Q ;;
  ret (rotate ch_img angle true).

(** [for ch in text: ...] with its [break]. *)
Fixpoint render_text (f : font) (w h font_size : Z) (rotation : Q)
    (chs : list ascii) (x : Z) (text_layer : Img RGBA) : M (Img RGBA) :=
  match chs with
  | [] => ret text_layer
  | ch :: rest =>
      ch_img <- render_glyph f h font_size rotation ch ;;
      if x + iw ch_img >? w - 20 then ret text_layer
      else
        let text_layer := paste text_layer ch_img x 0 in
        jitter <- randint (-1) 3 ;;
        render_text f w h font_size rotation rest
                    (x + (advance_x font_size + jitter)) text_layer
  end.

(** *** Mesh distortion (source lines 97-142) *)

Definition rand_offset (m : Q) : M Z :=
  u <- uniform (- m)%Q m ;; ret (py_int u).

Definition mesh_cell (cell_w cell_h max_offset_x max_offset_y : Q) (i j : Z)
    : M (box * quad) :=
  let x0 := py_int (inject_Z i * cell_w) in
  let y0 := py_int (inject_Z j * cell_h) in
  let x1 := py_int (inject_Z (i + 1) * cell_w) in
  let y1 := py_int (inject_Z (j + 1) * cell_h) in
  dx0 <- rand_offset max_offset_x ;;
  dy0 <- rand_offset max_offset_y ;;
  dx1 <- rand_offset max_offset_x ;;
  dy1 <- rand_offset max_offset_y ;;
  dx2 <- rand_offset max_offset_x ;;
  dy2 <- rand_offset max_offset_y ;;
  dx3 <- rand_offset max_offset_x ;;
  dy3 <- rand_offset max_offset_y ;;
  ret ((x0, y0, x1, y1),
       (x0 + dx0, y0 + dy0, x1 + dx1, y0 + dy1,
        x1 + dx2, y1 + dy2, x0 + dx3, y1 + dy3)).

Definition build_mesh (w h : Z) (mesh_steps : Z * Z) (distortion : Q)
    : M (list (box * quad)) :=
  let '(nx, ny) := mesh_steps in
  let nx := Z.max 1 nx in
  let ny := Z.max 1 ny in
  let cell_w := (inject_Z w / inject_Z nx)%Q in
  let cell_h := (inject_Z h / inject_Z ny)%Q in
  let max_offset_x := py_max 1 (cell_w * 0.25 * distortion) in
  let max_offset_y := py_max 1 (cell_h * 0.30 * distortion) in
  for_each (range nx) (fun i mesh =>
    for_each (range ny) (fun j mesh =>
      c <- mesh_cell cell_w cell_h max_offset_x max_offset_y i j ;;
      ret (mesh ++ [c])) mesh) [].

Definition distort (w h : Z) (distortion rotation : Q)
    (mesh : list (box * quad)) (composed : Img RGBA) : M (Img RGBA) :=
  if Qltb 0.001 distortion && mesh_available then
    match mesh_px composed (w, h) mesh with
    | Some f => ret (mkImg w h f)
    | None => a <- uniform (-2) 2 ;; ret (rotate composed a false)
    end
  else
    u <- uniform (-1) 1 ;; ret (rotate composed (u * rotation) false).

(** *** Noise and grid (source lines 147-168) *)

Definition noise_amp (noise : Q) : Z := py_int (8 + 120 * noise).

(** The [except] branch: one [random.random()] per pixel, row by row; a
    mode-L pixel stores a byte. *)
Definition manual_noise (w h : Z) (noise : Q) : M (Img Z) :=
  noise_img <- image_new "L" w h 0 ;;
  for_each (range h) (fun yy npix =>
    for_each (range w) (fun xx npix =>
      u <- random ;;
      ret (draw_point npix xx yy
             (clip8 (py_int (128 + (127 * noise) * (u - 0.5))))))
      npix) noise_img.

(** [try: Image.effect_noise(...) except Exception: <manual noise>] *)
Definition make_noise (w h : Z) (noise : Q) : M (Img Z) :=
  r <- effect_noise w h (noise_amp noise) ;;
  match r with
  | Some noise_img => ret noise_img
  | None => manual_noise w h noise
  end.

Definition line_w (grid_spacing : Z) (grid_strength : Q) : Z :=
  Z.max 1 (py_int (py_max 1 (inject_Z grid_spacing * 0.06) * (0.3 + grid_strength))).

Definition line_opacity (grid_strength : Q) : Z := py_int (48 + 160 * grid_strength).

Definition py_range (start stop step : Z) : M (list Z) :=
  match range3 start stop step with
  | Some l => ret l
  | None => raise (ValueError "range() arg 3 must not be zero")
  end.

Definition make_grid (w h grid_spacing : Z) (grid_strength : Q) : M (Img Z) :=
  grid <- image_new "L" w h 0 ;;
  let line_w := line_w grid_spacing grid_strength in
  let line_opacity := clip8 (line_opacity grid_strength) in
  gxs <- py_range 0 w grid_spacing ;;
  let grid := fold_left (fun g gx =>
                draw_rectangle g (gx - line_w) 0 (gx + line_w) h line_opacity)
              gxs grid in
  gys <- py_range 0 h grid_spacing ;;
  let grid := fold_left (fun g gy =>
                draw_rectangle g 0 (gy - line_w) w (gy + line_w) line_opacity)
              gys grid in
  ret grid.

(** *** Alpha channel (source lines 170-193) *)

Definition base_sub (noise grid_strength : Q) : Z :=
  py_int (10 + 140 * (0.2 * noise + 0.8 * grid_strength)).

Definition noise_scaled (noise : Q) (noise_img : Img Z) : Img Z :=
  point (fun p => py_int (inject_Z p * noise * 0.85)) noise_img.

Definition reduction (noise : Q) (noise_img grid : Img Z) : Img Z :=
  chops_add (noise_scaled noise noise_img) grid.

Definition alpha_map (noise grid_strength : Q) (noise_img grid : Img Z) : Img Z :=
  point (fun p =>
           py_int (py_min 255 (inject_Z (base_sub noise grid_strength)
                               + inject_Z p * 0.6)))
        (reduction noise noise_img grid).

(** [text_mask.point(lambda p: 230 if p > 16 else 0)] *)
Definition forced (text_layer : Img RGBA) : Img Z :=
  point (fun p => if p >? 16 then 230 else 0) (band chA text_layer).

Definition min_alpha (noise grid_strength : Q) : Z :=
  Z.max 100 (Z.min 255 (py_int (150 - 60 * (noise * 0.8 + grid_strength * 0.2)))).

(** *** Overlay and contrast (source lines 199-215) *)

Definition line_count (noise : Q) : Z := py_int (2 + 12 * noise).

Definition line_alpha (noise : Q) : Z := py_int (20 + 140 * noise).

Definition dot_count (w h : Z) (noise : Q) : Z :=
  py_int (inject_Z (w * h) * 0.0006 * (1 + noise * 2)).

Definition dot_alpha (noise : Q) : Z := py_int (10 + 140 * noise).

Definition overlay_line (w h : Z) (noise : Q) (overlay : Img RGBA) : M (Img RGBA) :=
  x0 <- randint 0 w ;;
  y0 <- randint 0 h ;;
  x1 <- randint 0 w ;;
  y1 <- randint 0 h ;;
  width <- randint 1 2 ;;
  ret (draw_line overlay (x0, y0, x1, y1) (mkRGBA 0 0 0 (line_alpha noise)) width).

Definition overlay_dot (w h : Z) (noise : Q) (overlay : Img RGBA) : M (Img RGBA) :=
  x0 <- randint 0 (w - 1) ;;
  y0 <- randint 0 (h - 1) ;;
  ret (draw_point overlay x0 y0 (mkRGBA 0 0 0 (dot_alpha noise))).

Definition make_overlay (w h : Z) (noise : Q) : M (Img RGBA) :=
  overlay <- image_new "RGBA" w h (mkRGBA 0 0 0 0) ;;
  overlay <- for_each (range (line_count noise))
               (fun _ ov => overlay_line w h noise ov) overlay ;;
  for_each (range (dot_count w h noise))
    (fun _ ov => overlay_dot w h noise ov) overlay.

Definition contrast (p : Z) : Z :=
  Z.min 255 (py_int ((inject_Z p - 16) * 1.06 + 6)).

Definition finish (out : Img RGBA) : Img RGBA :=
  merge (point contrast (band chR out)) (point contrast (band chG out))
        (point contrast (band chB out)) (band chA out).

(** *** The generator (source lines 35-217) *)

(** The local variables of [captcha] that are live at its [return]. *)
Record Locals : Type := mkLocals {
  l_w          : Z;
  l_h          : Z;
  l_text_layer : Img RGBA;   (* the text layer, before any warp *)
  l_composed   : Img RGBA;   (* after mesh/rotation and blur *)
  l_noise_img  : Img Z;
  l_grid       : Img Z;
  l_alpha_sub  : Img Z;      (* alpha right after ImageChops.subtract *)
  l_alpha      : Img Z;      (* alpha as merged into the image *)
  l_overlay    : Img RGBA;
  l_out        : Img RGBA    (* the returned image *)
}.

Definition captcha_run (p : Params) : M Locals :=
  let distortion := clamp01 (distortion p) in
  let noise := clamp01 (noise p) in
  let grid_strength := clamp01 (grid_strength p) in
  let rotation := clamp01 (rotation p) in
  let w := resolve_width p in
  let h := height p in
  base <- image_new "RGBA" w h (mkRGBA 255 255 255 255) ;;
  let f := load_font p in
  text_layer <- image_new "RGBA" w h (mkRGBA 0 0 0 0) ;;
  text_layer <- render_text f w h (font_size p) rotation
                  (list_ascii_of_string (text p)) 20 text_layer ;;
  let composed := alpha_composite base text_layer in
  mesh <- build_mesh w h (mesh_steps p) distortion ;;
  composed <- distort w h distortion rotation mesh composed ;;
  let composed := gaussian_blur composed (0.3 * (0.5 + distortion * 0.5)) in
  noise_img <- make_noise w h noise ;;
  grid <- make_grid w h (grid_spacing p) grid_strength ;;
  alpha <- image_new "L" w h 255 ;;
  let alpha_sub :=
    chops_subtract alpha (alpha_map noise grid_strength noise_img grid) in
  let alpha :=
    if protect_text p then chops_lighter alpha_sub (forced text_layer)
    else alpha_sub in
  let alpha := point (fun a => Z.max (min_alpha noise grid_strength) a) alpha in
  let out := merge (band chR composed) (band chG composed)
                   (band chB composed) alpha in
  overlay <- make_overlay w h noise ;;
  let out := alpha_composite out overlay in
  let out := finish out in
  ret (mkLocals w h text_layer composed noise_img grid alpha_sub alpha
                overlay out).

Definition captcha (p : Params) : M (Img RGBA) :=
  l <- captcha_run p ;; ret (l_out l).

(* ===================================================================== *)
(** ** web_api.py *)
(* ===================================================================== *)

Inductive Response : Type :=
| ErrorPayload (error : string)
| CaptchaPayload (token image_b64 : string).

(** [base64.b64encode(PNG bytes of img).decode()] *)
Variable png_base64 : Img RGBA -> string.

(** The keyword arguments of the call in [generate_captcha]; the others take
    the defaults of [captcha]'s signature. *)
Definition request_params (t : string) : Params :=
  mkParams t None 50 None 30 (1, 11) 16 0 1 0 1 true.

Definition respond (img : Img RGBA) : M Response :=
  ret (CaptchaPayload "dummy-token"
         (String.append "data:image/png;base64," (png_base64 img))).

(** The handler, with the imported name [captcha] as a parameter so that
    its calls can be observed. *)
Definition generate_captcha_with (core : Params -> M (Img RGBA))
    (numbers : list Z) : M Response :=
  if negb (List.length numbers =? 5)%nat
  then ret (ErrorPayload "Must provide exactly 5 numbers")
  else
    let text := join (map str numbers) in
    img <- core (request_params text) ;;
    respond img.

Definition generate_captcha (numbers : list Z) : M Response :=
  generate_captcha_with captcha numbers.

End Captcha.

(* ===================================================================== *)
(** ** A small executable backend *)
(* ===================================================================== *)

(** Used to run the model on concrete inputs: no TrueType font is installed,
    a glyph is a solid 6x10 block, rotation, warp and blur keep the pixels,
    the noise primitive steps a linear congruential generator, and a line
    covers the pixels of its bounding box that lie within the stroke. *)
Module Simple.

Definition in_box (x0 y0 x1 y1 x y : Z) : bool :=
  (x0 <=? x) && (x <=? x1) && (y0 <=? y) && (y <=? y1).

Definition block_text_px (im : Img RGBA) (xy : Z * Z) (ch : ascii) (f : font)
    (fill : RGBA) (x y : Z) : RGBA :=
  let '(x0, y0) := xy in
  if in_box x0 y0 (x0 + 5) (y0 + 9) x y then fill else px im x y.

Definition lcg (c : N) : N := ((c * 1103515245 + 12345) mod 2147483648)%N.

Definition lcg_noise_px (size : Z * Z) (sigma : Z) (c : N)
    : option ((Z -> Z -> Z) * N) :=
  Some (fun x y =>
          128 + (Z.of_N (lcg (c + Z.to_N (x + fst size * y))) mod 129 - 64)
                * sigma / 64,
        lcg c).

Definition segment_px (xy : box) (width x y : Z) : bool :=
  let '(x0, y0, x1, y1) := xy in
  in_box (Z.min x0 x1) (Z.min y0 y1) (Z.max x0 x1) (Z.max y0 y1) x y
  && (Z.abs ((x - x0) * (y1 - y0) - (y - y0) * (x1 - x0))
      <=? width * Z.max (Z.abs (x1 - x0)) (Z.abs (y1 - y0))).

Definition backend : Backend := {|
  font_available := fun _ _ => false;
  text_px := block_text_px;
  rotate_size := fun _ size => size;
  rotate_px := fun im _ _ => px im;
  mesh_available := true;
  mesh_px := fun im _ _ => Some (px im);
  blur_px := fun im _ => px im;
  effect_noise_px := lcg_noise_px;
  line_px := segment_px
|}.

End Simple.

(* ===================================================================== *)
(** ** The specification's formulas, as written *)
(* ===================================================================== *)

(** [clamp(v, lo, hi)] of the specification. *)
Definition spec_clamp (v lo hi : Q) : Q :=
  if Qltb v lo then lo else if Qltb hi v then hi else v.


(** Section 4.1: the width when none is given. *)
Definition spec_width (text_len font_size : Z) (width : option Z) : Z :=
  match width with
  | Some v => v
  | None => Z.max 220 (Qfloor (inject_Z text_len * inject_Z font_size * 0.6) + 60)
  end.





(** Section 4.1: the parameter sets the specification calls invalid. *)
Definition spec_invalid (p : Params) : Prop :=
  text p = EmptyString \/ height p <= 0 \/ font_size p <= 0.

(** The parameter set whose four knobs are already clamped. *)
Definition effective (p : Params) : Params :=
  mkParams (text p) (width p) (height p) (font_path p) (font_size p)
           (mesh_steps p) (grid_spacing p)
           (clamp01 (distortion p)) (clamp01 (noise p))
           (clamp01 (grid_strength p)) (clamp01 (rotation p))
           (protect_text p).

(** A core that only signals that it was called. *)
Definition probe (p : Params) : M (Img RGBA) :=
  raise (ValueError "core invoked").

(** The overlay has the canvas size and every alpha in it is a byte. *)
Definition overlay_ok (w h : Z) (ov : Img RGBA) : Prop :=
  iw ov = w /\ ih ov = h /\ forall x y, 0 <= chA (px ov x y) <= 255.

(** A relation between the world before and after that a computation
    maintains, whatever its outcome. *)
Definition preserves (R : World -> World -> Prop) {T} (m : M T) : Prop :=
  forall s, R s (snd (m s)).

(** The log of created buffers only grows. *)
Definition log_extends (s s' : World) : Prop :=
  exists newer, allocs s' = newer ++ allocs s.

(** *** Observing a run *)

Definition succeeded {T} (r : outcome T * World) : bool :=
  match fst r with Ok _ => true | Raised _ => false end.

Definition value_or {T} (d : T) (r : outcome T * World) : T :=
  match fst r with Ok v => v | Raised _ => d end.

(** Two worlds that the generator cannot tell apart: same samples on the
    tape, same read position, same state of the noise primitive.  The log of
    created buffers is not compared. *)
Definition same_random (s1 s2 : World) : Prop :=
  (forall n, tape s1 n = tape s2 n) /\ pos s1 = pos s2 /\ c_rand s1 = c_rand s2.



(** A computation whose outcome is a function of the random state alone. *)
Definition respects {T} (m : M T) : Prop :=
  forall s1 s2, same_random s1 s2 ->
    fst (m s1) = fst (m s2) /\ same_random (snd (m s1)) (snd (m s2)).

(** A computation that always returns. *)
Definition total {T} (m : M T) : Prop :=
  forall s, exists v s', m s = (Ok v, s').

(** A computation that never raises the specification's [ValidationError]. *)
Definition unvalidated {T} (m : M T) : Prop :=
  forall s e s', m s = (Raised e, s') -> e <> ValidationError.

(** *** Concrete inputs used by the examples *)

Module Demo.

Definition demo_tape (n : nat) : Q := Z.of_nat ((n * 37) mod 100)%nat # 100.

Definition s0 : World := mkWorld demo_tape 0 7 [].

(** Same [random] state as [s0], other state of the noise primitive. *)
Definition s1 : World := mkWorld demo_tape 0 8 [].

Definition run (p : Params) (s : World) : outcome Locals * World :=
  @captcha_run Simple.backend p s.

Definition blank {P} (fill : P) : Img P := mkImg 0 0 (fun _ _ => fill).

(** The locals of a run; all-blank when the run raised. *)
Definition locals (p : Params) (s : World) : Locals :=
  value_or (mkLocals 0 0 (blank (mkRGBA 0 0 0 0)) (blank (mkRGBA 0 0 0 0))
                     (blank 0) (blank 0) (blank 0) (blank 0)
                     (blank (mkRGBA 0 0 0 0)) (blank (mkRGBA 0 0 0 0)))
           (run p s).

(** Scenario A of the specification. *)
Definition scenario_a : Params :=
  mkParams "55978" None 50 None 30 (1, 11) 16 0 1 0 1 true.

(** Scenario C of the specification: empty text, every default. *)
Definition scenario_c : Params :=
  mkParams "" None 50 None 30 (1, 11) 16 0 1 0 1 true.


(** Little noise, full grid, no text protection. *)
Definition full_grid : Params :=
  mkParams "55978" None 50 None 30 (1, 11) 16 0 (1 # 10) 1 1 false.

End Demo.

(* ===================================================================== *)
(** ** Notions used by the further properties *)
(* ===================================================================== *)

(** The tape is read, never written. *)
Definition same_tape (s s' : World) : Prop := tape s' = tape s.

(** When [captcha] gets past every [Image.new] and [range]. *)
Definition well_sized (p : Params) : Prop :=
  (forall v, width p = Some v -> 0 <= v)
  /\ 0 <= height p
  /\ (text p = EmptyString \/ -8 <= font_size p)
  /\ grid_spacing p <> 0.

(** The source rectangle of mesh cell [(i, j)] (source lines 111-114). *)
Definition cell_box (cell_w cell_h : Q) (i j : Z) : box :=
  (py_int (inject_Z i * cell_w), py_int (inject_Z j * cell_h),
   py_int (inject_Z (i + 1) * cell_w), py_int (inject_Z (j + 1) * cell_h)).

(** Pixel [(x, y)] lies in a box, right and bottom edges excluded. *)
Definition in_cell (b : box) (x y : Z) : Prop :=
  let '(x0, y0, x1, y1) := b in x0 <= x < x1 /\ y0 <= y < y1.

(** Every corner of the quadrilateral is within [(mx, my)] of the corner of
    the box it was displaced from. *)
Definition corners_within (mx my : Q) (c : box * quad) : Prop :=
  let '((x0, y0, x1, y1), (a0, b0, a1, b1, a2, b2, a3, b3)) := c in
  let near (m : Q) (v v0 : Z) := (- m <= inject_Z (v - v0) /\ inject_Z (v - v0) <= m)%Q in
  near mx a0 x0 /\ near my b0 y0 /\ near mx a1 x1 /\ near my b1 y0
  /\ near mx a2 x1 /\ near my b2 y1 /\ near mx a3 x0 /\ near my b3 y1.

(** Pixel [(x, y)] is on a grid band: within [lw] of a multiple of the
    spacing that lies on the canvas. *)
Definition on_band (w h spacing lw x y : Z) : Prop :=
  (exists k, 0 <= k * spacing < w /\ k * spacing - lw <= x <= k * spacing + lw
             /\ 0 <= y <= h)
  \/ (exists k, 0 <= k * spacing < h /\ k * spacing - lw <= y <= k * spacing + lw
                /\ 0 <= x <= w).

Definition transparent : RGBA := mkRGBA 0 0 0 0.

(* ===================================================================== *)
(** ** Arithmetic of the Python helpers *)
(* ===================================================================== *)

Lemma Qltb_lt a b : Qltb a b = true <-> (a < b)%Q.
Proof.
  unfold Qltb. rewrite negb_true_iff. split; intro H.
  - apply Qnot_le_lt. intro L. apply Qle_bool_iff in L. congruence.
  - destruct (Qle_bool b a) eqn:E; [|reflexivity].
    apply Qle_bool_iff in E. exfalso. exact (Qlt_not_le _ _ H E).
Qed.

Lemma Qltb_ge a b : Qltb a b = false <-> (b <= a)%Q.
Proof.
  unfold Qltb. rewrite negb_false_iff. apply Qle_bool_iff.
Qed.

Lemma py_int_floor q : (0 <= q)%Q -> py_int q = Qfloor q.
Proof.
  destruct q as [n d]. unfold py_int, Qfloor, Qle. simpl. intro H.
  apply Z.quot_div_nonneg; lia.
Qed.

Lemma py_int_mono a b : (0 <= a)%Q -> (a <= b)%Q -> py_int a <= py_int b.
Proof.
  intros Ha Hab. rewrite !py_int_floor by lra. now apply Qfloor_resp_le.
Qed.

Lemma py_int_nonneg q : (0 <= q)%Q -> 0 <= py_int q.
Proof.
  intro H. change 0 with (py_int 0). apply py_int_mono; lra.
Qed.

(** Truncation and rounding down differ only below zero, where both are
    at most zero. *)
Lemma py_int_neg q : (q < 0)%Q -> py_int q <= 0 /\ Qfloor q < 0.
Proof.
  destruct q as [n d]. unfold py_int, Qfloor, Qlt. simpl. intro H.
  split.
  - assert (E : n = - (- n)) by lia. rewrite E, Z.quot_opp_l by lia.
    pose proof (Z.quot_pos (- n) (Z.pos d)). lia.
  - apply Z.div_lt_upper_bound; lia.
Qed.

Lemma py_int_le_bound q k : (q <= inject_Z k)%Q -> 0 <= k -> py_int q <= k.
Proof.
  intros H Hk. destruct (Qlt_le_dec q 0) as [L|L].
  - destruct (py_int_neg q L). lia.
  - rewrite py_int_floor by exact L.
    rewrite <- (Qfloor_Z k). now apply Qfloor_resp_le.
Qed.

Lemma py_int_ge_bound q k : (inject_Z k <= q)%Q -> 0 <= k -> k <= py_int q.
Proof.
  intros H Hk.
  assert (0 <= q)%Q.
  { eapply Qle_trans; [|exact H]. change 0%Q with (inject_Z 0).
    rewrite <- Zle_Qle. exact Hk. }
  rewrite py_int_floor by assumption.
  rewrite <- (Qfloor_Z k). now apply Qfloor_resp_le.
Qed.

Lemma clip8_range v : 0 <= clip8 v <= 255.
Proof. unfold clip8. lia. Qed.

Lemma clip8_id v : 0 <= v <= 255 -> clip8 v = v.
Proof. unfold clip8. lia. Qed.

Lemma clip8_py_int q : clip8 (py_int q) = clip8 (Qfloor q).
Proof.
  destruct (Qlt_le_dec q 0) as [L|L].
  - destruct (py_int_neg q L). unfold clip8. lia.
  - now rewrite py_int_floor.
Qed.

Lemma clamp01_cases v :
  ((v <= 0)%Q /\ clamp01 v = 0%Q) \/
  ((0 < v)%Q /\ (v < 1)%Q /\ clamp01 v = v) \/
  ((1 <= v)%Q /\ clamp01 v = 1%Q).
Proof.
  unfold clamp01, py_min.
  destruct (Qltb v 1) eqn:E1.
  - apply Qltb_lt in E1. unfold py_max.
    destruct (Qltb 0 v) eqn:E2.
    + apply Qltb_lt in E2. right; left. auto.
    + apply Qltb_ge in E2. left. auto.
  - apply Qltb_ge in E1. right; right. split; [exact E1 | reflexivity].
Qed.

Lemma clamp01_range v : (0 <= clamp01 v /\ clamp01 v <= 1)%Q.
Proof.
  destruct (clamp01_cases v) as [[? ->]|[(? & ? & ->)|[? ->]]]; lra.
Qed.


Lemma clamp01_idem v : clamp01 (clamp01 v) = clamp01 v.
Proof.
  destruct (clamp01_cases v) as [[? E]|[(? & ? & E)|[? E]]]; rewrite E.
  - reflexivity.
  - exact E.
  - reflexivity.
Qed.

Lemma clamp01_spec v : (clamp01 v == spec_clamp v 0 1)%Q.
Proof.
  unfold spec_clamp.
  destruct (clamp01_cases v) as [[L E]|[(L1 & L2 & E)|[L E]]]; rewrite E.
  - destruct (Qltb v 0) eqn:E0; [reflexivity|].
    apply Qltb_ge in E0.
    destruct (Qltb 1 v) eqn:E1; [apply Qltb_lt in E1; lra | lra].
  - destruct (Qltb v 0) eqn:E0; [apply Qltb_lt in E0; lra|].
    destruct (Qltb 1 v) eqn:E1; [apply Qltb_lt in E1; lra | reflexivity].
  - destruct (Qltb v 0) eqn:E0; [apply Qltb_lt in E0; lra|].
    destruct (Qltb 1 v) eqn:E1; [reflexivity | apply Qltb_ge in E1; lra].
Qed.

(* ===================================================================== *)
(** ** Reasoning about the effect monad *)
(* ===================================================================== *)

Lemma bind_ok_inv {T U} (m : M T) (k : T -> M U) s v s' :
  bind m k s = (Ok v, s') ->
  exists a s1, m s = (Ok a, s1) /\ k a s1 = (Ok v, s').
Proof.
  unfold bind. destruct (m s) as [[a|e] s1]; intro H.
  - exists a, s1. auto.
  - discriminate.
Qed.

Lemma ret_ok_inv {T} (a v : T) s s' : ret a s = (Ok v, s') -> v = a /\ s' = s.
Proof. unfold ret. intro H. inversion H. auto. Qed.

Lemma succeeded_eq {T} (d : T) (r : outcome T * World) :
  succeeded r = true -> r = (Ok (value_or d r), snd r).
Proof.
  unfold succeeded, value_or. destruct r as [[v|e] s]; simpl.
  - reflexivity.
  - discriminate.
Qed.

Lemma image_new_inv {P} mode w h (fill : P) s im s' :
  image_new mode w h fill s = (Ok im, s') ->
  0 <= w /\ 0 <= h /\ im = mkImg w h (fun _ _ => fill)
  /\ s' = log_alloc (mode, w, h) s.
Proof.
  unfold image_new.
  destruct (w <? 0) eqn:Ew; destruct (h <? 0) eqn:Eh; simpl; intro H;
    try discriminate.
  inversion H. repeat split; lia.
Qed.

(** Loop invariants: what every iteration preserves holds at the exit. *)
Lemma for_each_inv {X S} (I : S -> Prop) (body : X -> S -> M S) :
  (forall x a s a' s', body x a s = (Ok a', s') -> I a -> I a') ->
  forall xs acc s r s', for_each xs body acc s = (Ok r, s') -> I acc -> I r.
Proof.
  intros Hb xs. induction xs as [|x rest IH]; intros acc s r s' H Hacc.
  - apply ret_ok_inv in H. destruct H as [-> _]. exact Hacc.
  - simpl in H. apply bind_ok_inv in H. destruct H as (a & s1 & H1 & H2).
    eapply IH; eauto.
Qed.

(** *** Totality *)

Lemma total_ret {T} (v : T) : total (ret v).
Proof. intro s. exists v, s. reflexivity. Qed.

Lemma total_bind {T U} (m : M T) (k : T -> M U) :
  total m -> (forall a, total (k a)) -> total (bind m k).
Proof.
  intros Hm Hk s. destruct (Hm s) as (a & s1 & E).
  destruct (Hk a s1) as (v & s2 & E2).
  exists v, s2. unfold bind. now rewrite E.
Qed.

Lemma total_for_each {X S} (xs : list X) (body : X -> S -> M S) :
  (forall x a, In x xs -> total (body x a)) ->
  forall acc, total (for_each xs body acc).
Proof.
  induction xs as [|x rest IH]; intros Hb acc; simpl.
  - apply total_ret.
  - apply total_bind.
    + apply Hb. now left.
    + intro a. apply IH. intros y b Hy. apply Hb. now right.
Qed.

Lemma total_random : total random.
Proof. intro s. eexists; eexists. reflexivity. Qed.

Lemma total_uniform a b : total (uniform a b).
Proof.
  unfold uniform. apply total_bind; [apply total_random|].
  intro. apply total_ret.
Qed.

Lemma total_randint a b : a <= b -> total (randint a b).
Proof.
  intro H. unfold randint.
  destruct (b <? a) eqn:E; [apply Z.ltb_lt in E; lia|].
  apply total_bind; [apply total_random|]. intro. apply total_ret.
Qed.

Lemma total_image_new {P} mode w h (fill : P) :
  0 <= w -> 0 <= h -> total (image_new mode w h fill).
Proof.
  intros Hw Hh s. unfold image_new.
  destruct (w <? 0) eqn:Ew; [apply Z.ltb_lt in Ew; lia|].
  destruct (h <? 0) eqn:Eh; [apply Z.ltb_lt in Eh; lia|].
  simpl. eexists; eexists. reflexivity.
Qed.

(** *** No [ValidationError] *)

Lemma unvalidated_ret {T} (v : T) : unvalidated (ret v).
Proof. intros s e s' H. discriminate. Qed.

Lemma unvalidated_bind {T U} (m : M T) (k : T -> M U) :
  unvalidated m -> (forall a, unvalidated (k a)) -> unvalidated (bind m k).
Proof.
  intros Hm Hk s e s'. unfold bind.
  destruct (m s) as [[a|e1] s1] eqn:E; intro H.
  - eapply Hk; eauto.
  - inversion H; subst. eapply Hm; eauto.
Qed.

Lemma unvalidated_for_each {X S} (xs : list X) (body : X -> S -> M S) :
  (forall x a, unvalidated (body x a)) ->
  forall acc, unvalidated (for_each xs body acc).
Proof.
  intro Hb. induction xs as [|x rest IH]; intro acc; simpl.
  - apply unvalidated_ret.
  - apply unvalidated_bind; auto.
Qed.

Lemma unvalidated_value_error {T} msg : unvalidated (@raise T (ValueError msg)).
Proof. intros s e s' H. inversion H. discriminate. Qed.

Lemma unvalidated_random : unvalidated random.
Proof. intros s e s' H. discriminate. Qed.

Lemma unvalidated_uniform a b : unvalidated (uniform a b).
Proof.
  unfold uniform. apply unvalidated_bind; [apply unvalidated_random|].
  intro. apply unvalidated_ret.
Qed.

Lemma unvalidated_randint a b : unvalidated (randint a b).
Proof.
  unfold randint. destruct (b <? a).
  - apply unvalidated_value_error.
  - apply unvalidated_bind; [apply unvalidated_random|].
    intro. apply unvalidated_ret.
Qed.

Lemma unvalidated_image_new {P} mode w h (fill : P) :
  unvalidated (image_new mode w h fill).
Proof.
  intros s e s'. unfold image_new. destruct ((w <? 0) || (h <? 0)); intro H.
  - inversion H. discriminate.
  - discriminate.
Qed.

(** *** Dependence on the random state only *)

Lemma same_random_refl s : same_random s s.
Proof. repeat split. Qed.

Lemma respects_ret {T} (v : T) : respects (ret v).
Proof. intros s1 s2 H. simpl. auto. Qed.

Lemma respects_raise {T} e : respects (@raise T e).
Proof. intros s1 s2 H. simpl. auto. Qed.

Lemma respects_bind {T U} (m : M T) (k : T -> M U) :
  respects m -> (forall a, respects (k a)) -> respects (bind m k).
Proof.
  intros Hm Hk s1 s2 H. unfold bind.
  destruct (Hm s1 s2 H) as [E1 E2].
  destruct (m s1) as [[a1|e1] t1]; destruct (m s2) as [[a2|e2] t2];
    simpl in E1, E2; try discriminate.
  - inversion E1; subst. apply Hk. exact E2.
  - inversion E1; subst. simpl. auto.
Qed.

Lemma respects_for_each {X S} (xs : list X) (body : X -> S -> M S) :
  (forall x a, respects (body x a)) ->
  forall acc, respects (for_each xs body acc).
Proof.
  intro Hb. induction xs as [|x rest IH]; intro acc; simpl.
  - apply respects_ret.
  - apply respects_bind; auto.
Qed.

Lemma respects_random : respects random.
Proof.
  intros s1 s2 (Ht & Hp & Hc). unfold random. simpl.
  split.
  - rewrite Hp. now rewrite Ht.
  - repeat split; simpl; auto.
Qed.

Lemma respects_uniform a b : respects (uniform a b).
Proof.
  unfold uniform. apply respects_bind; [apply respects_random|].
  intro. apply respects_ret.
Qed.

Lemma respects_randint a b : respects (randint a b).
Proof.
  unfold randint. destruct (b <? a).
  - apply respects_raise.
  - apply respects_bind; [apply respects_random|]. intro. apply respects_ret.
Qed.

Lemma respects_image_new {P} mode w h (fill : P) :
  respects (image_new mode w h fill).
Proof.
  intros s1 s2 (Ht & Hp & Hc). unfold image_new.
  destruct ((w <? 0) || (h <? 0)); simpl; repeat split; auto.
Qed.

Create HintDb total_db.
Create HintDb unvalidated_db.
Create HintDb respects_db.

#[export] Hint Resolve total_ret total_random total_uniform : total_db.
#[export] Hint Resolve unvalidated_ret unvalidated_random unvalidated_uniform
  unvalidated_randint unvalidated_image_new unvalidated_value_error
  : unvalidated_db.
#[export] Hint Resolve respects_ret respects_raise respects_random
  respects_uniform respects_randint respects_image_new : respects_db.

(** Peel one monadic construct off a goal about a computation. *)
Ltac step_total :=
  lazymatch goal with
  | |- total (bind _ _) => apply total_bind; [|intro]
  | |- total (for_each _ _ _) => apply total_for_each; intros
  | |- total (if ?b then _ else _) => destruct b
  | |- total (match ?o with Some _ => _ | None => _ end) => destruct o
  | |- total _ => solve [auto with total_db]
  end.

Ltac step_unvalidated :=
  lazymatch goal with
  | |- unvalidated (bind _ _) => apply unvalidated_bind; [|intro]
  | |- unvalidated (for_each _ _ _) => apply unvalidated_for_each; intros
  | |- unvalidated (if ?b then _ else _) => destruct b
  | |- unvalidated (match ?o with Some _ => _ | None => _ end) => destruct o
  | |- unvalidated _ => solve [auto with unvalidated_db]
  end.

Ltac step_respects :=
  lazymatch goal with
  | |- respects (bind _ _) => apply respects_bind; [|intro]
  | |- respects (for_each _ _ _) => apply respects_for_each; intros
  | |- respects (if ?b then _ else _) => destruct b
  | |- respects (match ?o with Some _ => _ | None => _ end) => destruct o
  | |- respects _ => solve [auto with respects_db]
  end.

(** Invert the next bind of a successful run. *)
Tactic Notation "inv_bind" hyp(H) "as" ident(a) ident(s1) ident(H1) :=
  apply bind_ok_inv in H; destruct H as (a & s1 & H1 & H).

Tactic Notation "inv_bind" hyp(H) :=
  let a := fresh "v" in
  let s1 := fresh "s" in
  let H1 := fresh "Hrun" in
  apply bind_ok_inv in H; destruct H as (a & s1 & H1 & H).

Tactic Notation "inv_ret" hyp(H) :=
  apply ret_ok_inv in H; destruct H as [-> _].

(* ===================================================================== *)
(** ** The stages of the generator *)
(* ===================================================================== *)

Section Stages.
Context `{BK : Backend}.

(** *** Every stage depends on the random state only *)

Lemma respects_effect_noise w h sigma : respects (effect_noise w h sigma).
Proof.
  intros s1 s2 (Ht & Hp & Hc). unfold effect_noise. rewrite Hc.
  destruct (effect_noise_px (w, h) sigma (c_rand s2)) as [[f c']|]; simpl;
    repeat split; auto.
Qed.

Lemma respects_py_range a b c : respects (py_range a b c).
Proof. unfold py_range. destruct (range3 a b c); auto with respects_db. Qed.

Lemma respects_rand_offset m : respects (rand_offset m).
Proof. unfold rand_offset. repeat step_respects. Qed.

Hint Resolve respects_effect_noise respects_py_range respects_rand_offset
  : respects_db.













(** *** No stage raises [ValidationError] *)

Lemma unvalidated_effect_noise w h sigma : unvalidated (effect_noise w h sigma).
Proof.
  intros s e s'. unfold effect_noise.
  destruct (effect_noise_px (w, h) sigma (c_rand s)) as [[f c']|]; discriminate.
Qed.

Lemma unvalidated_py_range a b c : unvalidated (py_range a b c).
Proof. unfold py_range. destruct (range3 a b c); auto with unvalidated_db. Qed.

Lemma unvalidated_rand_offset m : unvalidated (rand_offset m).
Proof. unfold rand_offset. repeat step_unvalidated. Qed.

Hint Resolve unvalidated_effect_noise unvalidated_py_range
  unvalidated_rand_offset : unvalidated_db.

Lemma unvalidated_render_text f w h fs rot chs :
  forall x tl, unvalidated (render_text f w h fs rot chs x tl).
Proof.
  induction chs as [|ch rest IH]; intros x tl; simpl.
  - auto with unvalidated_db.
  - apply unvalidated_bind.
    + unfold render_glyph. repeat step_unvalidated.
    + intro g. destruct (x + iw g >? w - 20); [auto with unvalidated_db|].
      apply unvalidated_bind; [auto with unvalidated_db|]. intro. apply IH.
Qed.

Lemma unvalidated_build_mesh w h ms d : unvalidated (build_mesh w h ms d).
Proof.
  unfold build_mesh. destruct ms as [nx ny].
  apply unvalidated_for_each. intros i mesh.
  apply unvalidated_for_each. intros j mesh'.
  unfold mesh_cell. repeat step_unvalidated.
Qed.

Lemma unvalidated_make_noise w h n : unvalidated (make_noise w h n).
Proof.
  unfold make_noise. apply unvalidated_bind; [auto with unvalidated_db|].
  intros [im|]; [auto with unvalidated_db|].
  unfold manual_noise. repeat step_unvalidated.
Qed.

Lemma unvalidated_make_overlay w h n : unvalidated (make_overlay w h n).
Proof.
  unfold make_overlay.
  apply unvalidated_bind; [auto with unvalidated_db|]. intro.
  apply unvalidated_bind.
  - apply unvalidated_for_each. intros.
    unfold overlay_line. repeat step_unvalidated.
  - intro. apply unvalidated_for_each. intros.
    unfold overlay_dot. repeat step_unvalidated.
Qed.

Lemma unvalidated_captcha_run p : unvalidated (captcha_run p).
Proof.
  unfold captcha_run. cbv zeta.
  apply unvalidated_bind; [auto with unvalidated_db|]. intro base.
  apply unvalidated_bind; [auto with unvalidated_db|]. intro tl0.
  apply unvalidated_bind; [apply unvalidated_render_text|]. intro tl.
  apply unvalidated_bind; [apply unvalidated_build_mesh|]. intro mesh.
  apply unvalidated_bind; [unfold distort; repeat step_unvalidated|].
  intro composed.
  apply unvalidated_bind; [apply unvalidated_make_noise|]. intro nz.
  apply unvalidated_bind; [unfold make_grid; repeat step_unvalidated|].
  intro gr.
  apply unvalidated_bind; [auto with unvalidated_db|]. intro al.
  apply unvalidated_bind; [apply unvalidated_make_overlay|]. intro ov.
  auto with unvalidated_db.
Qed.

End Stages.

(** *** The generator returns on well-formed sizes *)

Section Totality.
Context `{BK : Backend}.

Lemma py_int_zero q : (q == 0)%Q -> py_int q = 0.
Proof.
  intro H. rewrite py_int_floor by lra.
  rewrite (Qfloor_comp _ _ H). reflexivity.
Qed.

Lemma range_nonempty n x : In x (range n) -> 0 < n.
Proof.
  unfold range. destruct (Z.to_nat n) eqn:E; simpl.
  - tauto.
  - intros _. lia.
Qed.

Lemma dot_count_positive w h n :
  0 <= w -> 0 <= h -> 0 < dot_count w h n -> 1 <= w /\ 1 <= h.
Proof.
  intros Hw Hh Hd.
  destruct (Z.eq_dec (w * h) 0) as [E|E].
  - unfold dot_count in Hd. rewrite E in Hd.
    rewrite py_int_zero in Hd by (simpl; ring). lia.
  - split; nia.
Qed.

Lemma total_effect_noise w h sigma : total (effect_noise w h sigma).
Proof.
  intro s. unfold effect_noise.
  destruct (effect_noise_px (w, h) sigma (c_rand s)) as [[f c']|];
    eexists; eexists; reflexivity.
Qed.

Lemma total_py_range a b c : c <> 0 -> total (py_range a b c).
Proof.
  intro H. unfold py_range, range3.
  destruct (c =? 0) eqn:E; [apply Z.eqb_eq in E; contradiction|].
  destruct (0 <? c); apply total_ret.
Qed.

Lemma total_rand_offset m : total (rand_offset m).
Proof. unfold rand_offset. repeat step_total. Qed.

Hint Resolve total_effect_noise total_py_range total_rand_offset
  total_image_new total_randint : total_db.
Hint Extern 1 (_ <= _) => lia : total_db.

Lemma total_render_glyph f h fs rot ch :
  0 <= ch_w fs -> 0 <= h -> total (render_glyph f h fs rot ch).
Proof. intros. unfold render_glyph. repeat step_total. Qed.

Lemma total_render_text f w h fs rot chs :
  (chs <> [] -> 0 <= ch_w fs) -> 0 <= h ->
  forall x tl, total (render_text f w h fs rot chs x tl).
Proof.
  intros Hc Hh. induction chs as [|ch rest IH]; intros x tl; simpl.
  - apply total_ret.
  - assert (Hcw : 0 <= ch_w fs) by (apply Hc; discriminate).
    apply total_bind; [now apply total_render_glyph|]. intro g.
    destruct (x + iw g >? w - 20); [apply total_ret|].
    apply total_bind; [apply total_randint; lia|]. intro.
    apply IH. intros _. exact Hcw.
Qed.

Lemma total_build_mesh w h ms d : total (build_mesh w h ms d).
Proof.
  unfold build_mesh. destruct ms as [nx ny].
  apply total_for_each. intros i mesh _.
  apply total_for_each. intros j mesh' _.
  unfold mesh_cell. repeat step_total.
Qed.

Lemma total_distort w h d rot mesh c : total (distort w h d rot mesh c).
Proof. unfold distort. repeat step_total. Qed.

Lemma total_make_noise w h n : 0 <= w -> 0 <= h -> total (make_noise w h n).
Proof.
  intros. unfold make_noise. apply total_bind; [auto with total_db|].
  intros [im|]; [apply total_ret|].
  unfold manual_noise. repeat step_total.
Qed.

Lemma total_make_grid w h gsp g :
  0 <= w -> 0 <= h -> gsp <> 0 -> total (make_grid w h gsp g).
Proof. intros. unfold make_grid. repeat step_total. Qed.

Lemma total_make_overlay w h n : 0 <= w -> 0 <= h -> total (make_overlay w h n).
Proof.
  intros Hw Hh. unfold make_overlay.
  apply total_bind; [auto with total_db|]. intro.
  apply total_bind.
  - apply total_for_each. intros.
    unfold overlay_line. repeat step_total.
  - intro. apply total_for_each. intros x ov Hin.
    apply range_nonempty in Hin.
    destruct (dot_count_positive w h n Hw Hh Hin).
    unfold overlay_dot.
    apply total_bind; [apply total_randint; lia|]. intro.
    apply total_bind; [apply total_randint; lia|]. intro.
    apply total_ret.
Qed.

(** Whenever the sizes handed to [Image.new] are not negative and the grid
    spacing is not zero, the generator returns an image. *)
Lemma captcha_run_total p :
  0 <= resolve_width p -> 0 <= height p ->
  (text p <> EmptyString -> 0 <= ch_w (font_size p)) ->
  grid_spacing p <> 0 ->
  total (captcha_run p).
Proof.
  intros Hw Hh Hc Hg. unfold captcha_run. cbv zeta.
  apply total_bind; [auto with total_db|]. intro base.
  apply total_bind; [auto with total_db|]. intro tl0.
  apply total_bind.
  { apply total_render_text; [|exact Hh].
    intro Hne. apply Hc. intro E. apply Hne. rewrite E. reflexivity. }
  intro tl.
  apply total_bind; [apply total_build_mesh|]. intro mesh.
  apply total_bind; [apply total_distort|]. intro composed.
  apply total_bind; [now apply total_make_noise|]. intro nz.
  apply total_bind; [now apply total_make_grid|]. intro gr.
  apply total_bind; [auto with total_db|]. intro al.
  apply total_bind; [now apply total_make_overlay|]. intro ov.
  apply total_ret.
Qed.

End Totality.

(** *** What a successful run computed *)

Section RunFacts.
Context `{BK : Backend}.

Lemma shift_div255_ge d t :
  0 <= d <= 255 -> 255 * d + 128 <= t -> d <= shift_div255 t.
Proof.
  intros Hd Ht. unfold shift_div255. rewrite !Z.shiftr_div_pow2 by lia.
  change (2 ^ 8) with 256.
  assert (d - 1 <= t / 256) by (apply Z.div_le_lower_bound; lia).
  apply Z.div_le_lower_bound; lia.
Qed.

(** Compositing never lowers the alpha of the image underneath. *)
Lemma composite_alpha_ge dst src :
  0 <= chA dst <= 255 -> 0 <= chA src <= 255 ->
  chA dst <= chA (composite_px dst src).
Proof.
  intros Hd Hs. unfold composite_px.
  destruct (chA src =? 0); [lia|]. cbn [chA].
  apply shift_div255_ge; [exact Hd|].
  assert (0 <= chA src * (255 - chA dst)) by (apply Z.mul_nonneg_nonneg; lia).
  replace (chA src * 255 + chA dst * (255 - chA src))
    with (255 * chA dst + chA src * (255 - chA dst)) by ring.
  lia.
Qed.

Lemma finish_alpha out x y : chA (px (finish out) x y) = chA (px out x y).
Proof. reflexivity. Qed.

Lemma fold_rect_size {P} (f : Img P -> Z -> Img P) (xs : list Z) :
  (forall g x, iw (f g x) = iw g /\ ih (f g x) = ih g) ->
  forall g, iw (fold_left f xs g) = iw g /\ ih (fold_left f xs g) = ih g.
Proof.
  intro Hf. induction xs as [|x rest IH]; intro g; simpl.
  - auto.
  - destruct (IH (f g x)) as [-> ->]. apply Hf.
Qed.

Lemma render_text_size f w h fs rot chs :
  forall x tl s r s',
    render_text f w h fs rot chs x tl s = (Ok r, s') ->
    iw r = iw tl /\ ih r = ih tl.
Proof.
  induction chs as [|ch rest IH]; intros x tl s r s' H; simpl in H.
  - apply ret_ok_inv in H. destruct H as [-> _]. auto.
  - inv_bind H.
    destruct (x + iw v >? w - 20).
    + apply ret_ok_inv in H. destruct H as [-> _]. auto.
    + inv_bind H. apply IH in H. exact H.
Qed.

Lemma distort_size w h d rot mesh c s r s' :
  distort w h d rot mesh c s = (Ok r, s') ->
  iw c = w -> ih c = h -> iw r = w /\ ih r = h.
Proof.
  unfold distort. intros H Hw Hh.
  destruct (Qltb 0.001 d && mesh_available).
  - destruct (mesh_px c (w, h) mesh).
    + apply ret_ok_inv in H. destruct H as [-> _]. auto.
    + inv_bind H. apply ret_ok_inv in H. destruct H as [-> _]. auto.
  - inv_bind H. apply ret_ok_inv in H. destruct H as [-> _]. auto.
Qed.

Lemma make_noise_size w h n s r s' :
  make_noise w h n s = (Ok r, s') -> iw r = w /\ ih r = h.
Proof.
  unfold make_noise. intro H. inv_bind H.
  destruct v as [im|].
  - apply ret_ok_inv in H. destruct H as [-> _].
    unfold effect_noise in Hrun.
    destruct (effect_noise_px (w, h) (noise_amp n) (c_rand s)) as [[f c']|];
      inversion Hrun. auto.
  - unfold manual_noise in H. inv_bind H.
    apply image_new_inv in Hrun0. destruct Hrun0 as (_ & _ & -> & _).
    eapply (for_each_inv (fun im => iw im = w /\ ih im = h));
      cycle 1; [exact H | auto |].
    intros yy a t a' t' Hrow Ha.
    eapply (for_each_inv (fun im => iw im = w /\ ih im = h));
      cycle 1; [exact Hrow | exact Ha |].
    intros xx b u b' u' Hb Hsz. inv_bind Hb.
    apply ret_ok_inv in Hb. destruct Hb as [-> _]. exact Hsz.
Qed.

Lemma make_grid_size w h gsp g s r s' :
  make_grid w h gsp g s = (Ok r, s') -> iw r = w /\ ih r = h.
Proof.
  unfold make_grid. intro H. inv_bind H.
  apply image_new_inv in Hrun. destruct Hrun as (_ & _ & -> & _).
  inv_bind H. inv_bind H. apply ret_ok_inv in H. destruct H as [-> _].
  repeat match goal with
  | |- context [fold_left ?f ?xs ?g0] =>
      destruct (fold_rect_size f xs (fun _ _ => conj eq_refl eq_refl) g0)
        as [-> ->]
  end.
  auto.
Qed.

Lemma line_alpha_range n : (0 <= n)%Q -> (n <= 1)%Q -> 20 <= line_alpha n <= 160.
Proof.
  intros. unfold line_alpha. split.
  - apply py_int_ge_bound; [unfold inject_Z; lra | lia].
  - apply py_int_le_bound; [unfold inject_Z; lra | lia].
Qed.

Lemma dot_alpha_range n : (0 <= n)%Q -> (n <= 1)%Q -> 10 <= dot_alpha n <= 150.
Proof.
  intros. unfold dot_alpha. split.
  - apply py_int_ge_bound; [unfold inject_Z; lra | lia].
  - apply py_int_le_bound; [unfold inject_Z; lra | lia].
Qed.

Lemma make_overlay_ok w h n s r s' :
  (0 <= n)%Q -> (n <= 1)%Q ->
  make_overlay w h n s = (Ok r, s') -> overlay_ok w h r.
Proof.
  intros Hn0 Hn1 H. unfold make_overlay in H.
  pose proof (line_alpha_range n Hn0 Hn1) as Hla.
  pose proof (dot_alpha_range n Hn0 Hn1) as Hda.
  inv_bind H as ov0 sa Hnew.
  apply image_new_inv in Hnew. destruct Hnew as (_ & _ & -> & _).
  inv_bind H as ov1 sb Hlines.
  assert (Hl : overlay_ok w h ov1).
  { eapply (for_each_inv (overlay_ok w h)); cycle 1; [exact Hlines | |].
    - repeat split; cbn [px chA]; lia.
    - intros k a t a' t' Hb (Hw & Hh & Ha). unfold overlay_line in Hb.
      do 5 inv_bind Hb. inv_ret Hb.
      repeat split; auto; unfold draw_line; cbn [px];
        destruct (line_px _ _ _ _); cbn [chA]; try apply Ha; lia. }
  eapply (for_each_inv (overlay_ok w h)); cycle 1; [exact H | exact Hl |].
  intros k a t a' t' Hb (Hw & Hh & Ha). unfold overlay_dot in Hb.
  do 2 inv_bind Hb. inv_ret Hb.
  repeat split; auto; unfold draw_point; cbn [px];
    destruct ((x =? _) && (y =? _)); cbn [chA]; try apply Ha; lia.
Qed.

Lemma captcha_run_inv p s l s' :
  captcha_run p s = (Ok l, s') ->
  let d := clamp01 (distortion p) in
  let n := clamp01 (noise p) in
  let g := clamp01 (grid_strength p) in
  let w := resolve_width p in
  let h := height p in
  0 <= w /\ 0 <= h /\ l_w l = w /\ l_h l = h /\
  (iw (l_text_layer l) = w /\ ih (l_text_layer l) = h) /\
  (iw (l_composed l) = w /\ ih (l_composed l) = h) /\
  (iw (l_noise_img l) = w /\ ih (l_noise_img l) = h) /\
  (iw (l_grid l) = w /\ ih (l_grid l) = h) /\
  overlay_ok w h (l_overlay l) /\
  l_alpha_sub l =
    chops_subtract (mkImg w h (fun _ _ => 255))
                   (alpha_map n g (l_noise_img l) (l_grid l)) /\
  l_alpha l =
    point (fun a => Z.max (min_alpha n g) a)
          (if protect_text p
           then chops_lighter (l_alpha_sub l) (forced (l_text_layer l))
           else l_alpha_sub l) /\
  l_out l =
    finish (alpha_composite
              (merge (band chR (l_composed l)) (band chG (l_composed l))
                     (band chB (l_composed l)) (l_alpha l))
              (l_overlay l)).
Proof.
  intro H. unfold captcha_run in H. cbv zeta in H.
  inv_bind H as base sa Hbase. apply image_new_inv in Hbase.
  destruct Hbase as (Hw & Hh & Ebase & _).
  inv_bind H as tl0 sb Htl0. apply image_new_inv in Htl0.
  destruct Htl0 as (_ & _ & Etl & _).
  inv_bind H as tl sc Htl. apply render_text_size in Htl.
  subst tl0. cbn [iw ih] in Htl.
  inv_bind H as mesh sd Hmesh.
  inv_bind H as composed se Hdist.
  apply distort_size in Hdist; [|subst base; reflexivity..].
  inv_bind H as nz sf Hnz. apply make_noise_size in Hnz.
  inv_bind H as gr sg Hgr. apply make_grid_size in Hgr.
  inv_bind H as al sh Hal. apply image_new_inv in Hal.
  destruct Hal as (_ & _ & Eal & _).
  inv_bind H as ov si Hov.
  destruct (clamp01_range (noise p)) as [Hn0 Hn1].
  apply (make_overlay_ok _ _ _ _ _ _ Hn0 Hn1) in Hov.
  inv_ret H. subst al. cbn [l_w l_h l_text_layer l_composed l_noise_img l_grid
    l_alpha_sub l_alpha l_overlay l_out gaussian_blur iw ih].
  repeat split; try tauto; try apply Hov.
Qed.

End RunFacts.

(* ===================================================================== *)
(** ** Properties of the generator *)
(* ===================================================================== *)

Lemma run_locals p s :
  succeeded (Demo.run p s) = true ->
  Demo.run p s = (Ok (Demo.locals p s), snd (Demo.run p s)).
Proof. intro H. unfold Demo.locals. now apply succeeded_eq. Qed.

Lemma captcha_ok_inv `{BK : Backend} p s img s' :
  captcha p s = (Ok img, s') ->
  exists l, captcha_run p s = (Ok l, s') /\ img = l_out l.
Proof.
  unfold captcha. intro H. inv_bind H as l s1 Hl.
  apply ret_ok_inv in H. destruct H as [-> ->]. eauto.
Qed.

(** C4: whatever values are passed for distortion, noise, grid_strength and
    rotation, the generator works with [clamp(v, 0, 1)]: [clamp01] agrees
    with the specification's clamp and lands in [0, 1], and running on the
    raw knobs is running on the clamped ones. *)
Theorem clamp01_effective `{BK : Backend} (p : Params) :
  (forall v, (clamp01 v == spec_clamp v 0 1)%Q
             /\ (0 <= clamp01 v)%Q /\ (clamp01 v <= 1)%Q)
  /\ captcha_run p = captcha_run (effective p)
  /\ captcha p = captcha (effective p).
Proof.
  assert (E : captcha_run p = captcha_run (effective p)).
  { unfold captcha_run, resolve_width, load_font, effective.
    cbn [text width height font_path font_size mesh_steps grid_spacing
         distortion noise grid_strength rotation protect_text].
    rewrite !clamp01_idem. reflexivity. }
  split; [|split].
  - intro v. split; [apply clamp01_spec | apply clamp01_range].
  - exact E.
  - unfold captcha. now rewrite E.
Qed.



Lemma resolve_width_spec `{BK : Backend} p :
  resolve_width p = spec_width (len (text p)) (font_size p) (width p).
Proof.
  unfold resolve_width, spec_width. destruct (width p) as [v|]; [reflexivity|].
  set (q := (inject_Z (len (text p) * font_size p) * 0.6)%Q).
  assert (E : (inject_Z (len (text p)) * inject_Z (font_size p) * 0.6 == q)%Q).
  { unfold q. now rewrite inject_Z_mult. }
  rewrite (Qfloor_comp _ _ E).
  destruct (Qlt_le_dec q 0) as [L|L].
  - destruct (py_int_neg q L). lia.
  - now rewrite py_int_floor.
Qed.

Lemma run_out_size `{BK : Backend} p s l s' :
  captcha_run p s = (Ok l, s') ->
  iw (l_out l) = resolve_width p /\ ih (l_out l) = height p.
Proof.
  intro Hl. pose proof (captcha_run_inv p s l s' Hl) as I. cbv zeta in I.
  destruct I as (_ & _ & _ & _ & _ & Hc & _ & _ & _ & _ & _ & Eout).
  rewrite Eout. exact Hc.
Qed.

(** C5: the returned image has exactly the resolved size: the height as
    given, the width as given or, when absent,
    max(220, floor(len(text) * font_size * 0.6) + 60); the text layer, the
    warped and blurred composite, the noise field, the grid, the alpha
    channel and the overlay all have that size too. *)
Theorem output_dimensions `{BK : Backend} p s img s' :
  captcha p s = (Ok img, s') ->
  let w := spec_width (len (text p)) (font_size p) (width p) in
  let h := height p in
  (iw img = w /\ ih img = h)
  /\ exists l, captcha_run p s = (Ok l, s') /\ img = l_out l
       /\ (iw (l_text_layer l) = w /\ ih (l_text_layer l) = h)
       /\ (iw (l_composed l) = w /\ ih (l_composed l) = h)
       /\ (iw (l_noise_img l) = w /\ ih (l_noise_img l) = h)
       /\ (iw (l_grid l) = w /\ ih (l_grid l) = h)
       /\ (iw (l_alpha l) = w /\ ih (l_alpha l) = h)
       /\ (iw (l_overlay l) = w /\ ih (l_overlay l) = h).
Proof.
  intros H w h. apply captcha_ok_inv in H. destruct H as (l & Hl & ->).
  pose proof (captcha_run_inv p s l s' Hl) as I. cbv zeta in I.
  rewrite resolve_width_spec in I. fold w h in I.
  destruct I as (_ & _ & _ & _ & Htl & Hc & Hn & Hg & (Hov1 & Hov2 & _)
                 & Esub & Eal & Eout).
  assert (Ha : iw (l_alpha l) = w /\ ih (l_alpha l) = h).
  { rewrite Eal, Esub. destruct (protect_text p); auto. }
  split.
  - rewrite Eout. exact Hc.
  - exists l. tauto.
Qed.

Lemma output_dimensions_witness :
  iw (l_out (Demo.locals Demo.scenario_a Demo.s0)) = 220
  /\ ih (l_out (Demo.locals Demo.scenario_a Demo.s0)) = 50.
Proof.
  apply (output_dimensions (BK := Simple.backend) Demo.scenario_a Demo.s0
           (l_out (Demo.locals Demo.scenario_a Demo.s0))
           (snd (Demo.run Demo.scenario_a Demo.s0))).
  unfold captcha. fold (Demo.run Demo.scenario_a Demo.s0). unfold bind.
  rewrite run_locals by (vm_compute; reflexivity). reflexivity.
Defined.

(** The alpha channel merged into the image survives compositing and the
    contrast pass: the returned alpha is never below it. *)
Lemma out_alpha_ge `{BK : Backend} p s l s' :
  captcha_run p s = (Ok l, s') ->
  forall x y, px (l_alpha l) x y <= chA (px (l_out l) x y).
Proof.
  intros Hl x y.
  pose proof (captcha_run_inv p s l s' Hl) as I. cbv zeta in I.
  destruct I as (_ & _ & _ & _ & _ & _ & _ & _ & (_ & _ & Hov) & _ & Eal & Eout).
  rewrite Eout, finish_alpha. unfold alpha_composite, merge. cbn [px].
  set (a := px (l_alpha l) x y).
  assert (Ra : 0 <= a <= 255).
  { unfold a. rewrite Eal. unfold point. cbn [px]. apply clip8_range. }
  apply (composite_alpha_ge (mkRGBA _ _ _ a) (px (l_overlay l) x y));
    [exact Ra | apply Hov].
Qed.

Lemma min_alpha_range n g : 100 <= min_alpha n g <= 255.
Proof. unfold min_alpha. lia. Qed.

(** C2: with protect_text on, every pixel where the alpha of the text
    layer (as rendered, before any warp) exceeds 16 has alpha at least 230
    in the returned image. *)
Theorem protect_text_floor `{BK : Backend} p s img s' :
  captcha p s = (Ok img, s') ->
  protect_text p = true ->
  exists l, captcha_run p s = (Ok l, s') /\ img = l_out l /\
    forall x y, 16 < chA (px (l_text_layer l) x y) -> 230 <= chA (px img x y).
Proof.
  intros H Hp. apply captcha_ok_inv in H. destruct H as (l & Hl & ->).
  exists l. repeat split; auto. intros x y Hink.
  eapply Z.le_trans; [|apply (out_alpha_ge p s l s' Hl)].
  pose proof (captcha_run_inv p s l s' Hl) as I. cbv zeta in I.
  destruct I as (_ & _ & _ & _ & _ & _ & _ & _ & _ & _ & Eal & _).
  rewrite Eal, Hp. unfold forced, band, chops_lighter, point. cbn [px].
  apply Z.gtb_lt in Hink. rewrite Hink.
  pose proof (min_alpha_range (clamp01 (noise p)) (clamp01 (grid_strength p))).
  unfold clip8. lia.
Qed.

Lemma protect_text_floor_witness :
  exists l, Demo.run Demo.scenario_a Demo.s0
            = (Ok l, snd (Demo.run Demo.scenario_a Demo.s0))
    /\ 16 < chA (px (l_text_layer l) 26 10)
    /\ 230 <= chA (px (l_out l) 26 10).
Proof.
  destruct (protect_text_floor (BK := Simple.backend) Demo.scenario_a Demo.s0
              (l_out (Demo.locals Demo.scenario_a Demo.s0))
              (snd (Demo.run Demo.scenario_a Demo.s0)))
    as (l & Hl & Eimg & Hfloor).
  - unfold captcha. fold (Demo.run Demo.scenario_a Demo.s0). unfold bind.
    rewrite run_locals by (vm_compute; reflexivity). reflexivity.
  - reflexivity.
  - exists l. split; [exact Hl|].
    assert (El : l = Demo.locals Demo.scenario_a Demo.s0).
    { fold (Demo.run Demo.scenario_a Demo.s0) in Hl.
      rewrite run_locals in Hl by (vm_compute; reflexivity).
      inversion Hl. reflexivity. }
    assert (Hink : 16 < chA (px (l_text_layer l) 26 10)).
    { rewrite El. vm_compute. reflexivity. }
    split; [exact Hink|].
    specialize (Hfloor 26 10 Hink). rewrite Eimg in Hfloor. exact Hfloor.
Defined.





Lemma clip8_py_min_255 q : clip8 (py_int (py_min 255 q)) = clip8 (Qfloor q).
Proof.
  unfold py_min. destruct (Qltb q 255) eqn:E.
  - apply clip8_py_int.
  - apply Qltb_ge in E.
    assert (255 <= Qfloor q).
    { rewrite <- (Qfloor_Z 255). apply Qfloor_resp_le. exact E. }
    unfold clip8. change (py_int 255) with 255. lia.
Qed.





(* ===================================================================== *)
(** ** Text rendering *)
(* ===================================================================== *)

Lemma Qfloor_unique q z :
  (inject_Z z <= q)%Q -> (q < inject_Z (z + 1))%Q -> Qfloor q = z.
Proof.
  intros Hlo Hhi.
  assert (z <= Qfloor q).
  { rewrite <- (Qfloor_Z z). now apply Qfloor_resp_le. }
  assert (Qfloor q < z + 1).
  { rewrite Zlt_Qlt. eapply Qle_lt_trans; [apply Qfloor_le | exact Hhi]. }
  lia.
Qed.

(** [random.randint(-1, 3)] on a sample [u] of the unit interval: one of the
    five values, and the value [k] exactly on the fifth
    [(k+1)/5 <= u < (k+2)/5] of the interval. *)
Lemma randint_jitter s :
  tape_valid s ->
  let u := tape s (pos s) in
  let jitter := -1 + Qfloor (u * inject_Z 5) in
  randint (-1) 3 s = (Ok jitter, advance s)
  /\ -1 <= jitter <= 3
  /\ forall k, jitter = k <->
       (inject_Z (k + 1) <= 5 * u)%Q /\ (5 * u < inject_Z (k + 2))%Q.
Proof.
  intros Hv u jitter. destruct (Hv (pos s)) as [Hu0 Hu1]. fold u in Hu0, Hu1.
  split; [reflexivity|].
  assert (E5 : (u * inject_Z 5 == 5 * u)%Q) by (unfold inject_Z; ring).
  pose proof (Qfloor_le (u * inject_Z 5)) as Hlo.
  pose proof (Qlt_floor (u * inject_Z 5)) as Hhi.
  fold (Qfloor (u * inject_Z 5)) in *.
  set (f := Qfloor (u * inject_Z 5)) in *.
  assert (Hf : 0 <= f <= 4).
  { split.
    - change 0 with (Qfloor 0). apply Qfloor_resp_le. lra.
    - assert (f < 5); [|lia].
      rewrite Zlt_Qlt. eapply Qle_lt_trans; [exact Hlo|].
      unfold inject_Z. lra. }
  split; [unfold jitter; lia|].
  intro k. unfold jitter. split.
  - intro E. assert (Ef : f = k + 1) by lia. rewrite <- Ef.
    split.
    + rewrite <- E5. exact Hlo.
    + rewrite <- E5. replace (k + 2) with (f + 1) by lia. exact Hhi.
  - intros [H1 H2].
    assert (Ef : f = k + 1).
    { apply Qfloor_unique.
      - rewrite E5. exact H1.
      - rewrite E5. replace (k + 1 + 1) with (k + 2) by lia. exact H2. }
    lia.
Qed.





(* ===================================================================== *)
(** ** The request handler *)
(* ===================================================================== *)

(** [str] renders an integer as the decimal numeral that reads back as it. *)
Lemma str_decimal n :
  exists d, NilZero.int_of_string (str n) = Some d /\ Z.of_int d = n.
Proof.
  unfold str. pose proof (DecimalZ.of_to n) as E.
  destruct (Z.to_int n) as [u|u] eqn:Eu; destruct u;
    try (eexists; split; [apply NilZero.isi; discriminate | exact E]).
  - exists (Decimal.Pos (Decimal.D0 Decimal.Nil)).
    split; [apply NilZero.isi_posnil | exact E].
  - exists (Decimal.Neg (Decimal.D0 Decimal.Nil)).
    split; [apply NilZero.isi_negnil | exact E].
Qed.

(** C9: the handler calls the core generator exactly when [numbers] has 5
    elements.  For any other count it returns the error payload, the core
    is not called and nothing is raised.  For 5 numbers the text is the
    concatenation of their decimal numerals and the core is called with
    height=50, font_size=30, mesh_steps=(1,11), grid_spacing=16,
    distortion=0, noise=1, grid_strength=0, rotation=1, protect_text on and
    no width or font path. *)
Theorem generate_captcha_shape `{BK : Backend} (png : Img RGBA -> string)
    (numbers : list Z) :
  (List.length numbers <> 5%nat ->
     forall core s,
       generate_captcha_with png core numbers s
       = (Ok (ErrorPayload "Must provide exactly 5 numbers"), s))
  /\ (List.length numbers = 5%nat ->
     forall core,
       generate_captcha_with png core numbers
       = (img <- core (mkParams (join (map str numbers)) None 50 None 30
                                (1, 11) 16 0 1 0 1 true) ;;
          ret (CaptchaPayload "dummy-token"
                 (String.append "data:image/png;base64," (png img)))))
  /\ ((forall s, generate_captcha_with png probe numbers s
                 = (Raised (ValueError "core invoked"), s))
      <-> List.length numbers = 5%nat)
  /\ generate_captcha png numbers = generate_captcha_with png captcha numbers
  /\ (forall n, In n numbers ->
        exists d, NilZero.int_of_string (str n) = Some d /\ Z.of_int d = n).
Proof.
  assert (G : generate_captcha png numbers
              = generate_captcha_with png captcha numbers) by reflexivity.
  revert G. generalize (generate_captcha png numbers). intros gc G.
  unfold generate_captcha_with in *.
  destruct (List.length numbers =? 5)%nat eqn:E.
  - apply Nat.eqb_eq in E. cbn [negb] in *.
    split; [intro H; contradiction|].
    split; [intros _ core; reflexivity|].
    split; [split; [intros _; exact E | intros _ s; reflexivity]|].
    split; [exact G|]. intros n _. apply str_decimal.
  - apply Nat.eqb_neq in E. cbn [negb] in *.
    split; [intros _ core s; reflexivity|].
    split; [intro H; contradiction|].
    split.
    + split; [|intro H; contradiction].
      intro H. specialize (H (mkWorld (fun _ => 0%Q) 0 0 [])). discriminate H.
    + split; [exact G|]. intros n _. apply str_decimal.
Qed.

Lemma generate_captcha_shape_witness :
  (forall core s,
     generate_captcha_with (fun _ => EmptyString) core [1; 2; 3] s
     = (Ok (ErrorPayload "Must provide exactly 5 numbers"), s))
  /\ (forall core,
        generate_captcha_with (fun _ => EmptyString) core [5; 5; 9; 7; 8]
        = (img <- core (mkParams "55978" None 50 None 30 (1, 11) 16 0 1 0 1 true) ;;
           ret (CaptchaPayload "dummy-token" "data:image/png;base64,"))).
Proof.
  split.
  - apply (generate_captcha_shape (BK := Simple.backend)
             (fun _ => EmptyString) [1; 2; 3]).
    cbn [List.length]. discriminate.
  - apply (generate_captcha_shape (BK := Simple.backend)
             (fun _ => EmptyString) [5; 5; 9; 7; 8]).
    reflexivity.
Defined.

(* ===================================================================== *)
(** ** Frame properties of a run *)
(* ===================================================================== *)

Section Frame.
Context `{BK : Backend}.
Variable R : World -> World -> Prop.
Hypothesis R_refl : forall s, R s s.
Hypothesis R_trans : forall a b c, R a b -> R b c -> R a c.
Hypothesis R_advance : forall s, R s (advance s).
Hypothesis R_log : forall a s, R s (log_alloc a s).
Hypothesis R_c_rand : forall c s, R s (set_c_rand c s).

Lemma preserves_ret {T} (v : T) : preserves R (ret v).
Proof. intro s. apply R_refl. Qed.

Lemma preserves_raise {T} e : preserves R (@raise T e).
Proof. intro s. apply R_refl. Qed.

Lemma preserves_bind {T U} (m : M T) (k : T -> M U) :
  preserves R m -> (forall a, preserves R (k a)) -> preserves R (bind m k).
Proof.
  intros Hm Hk s. unfold bind. specialize (Hm s).
  destruct (m s) as [[a|e] s1]; cbn [snd] in *.
  - eapply R_trans; [exact Hm | apply Hk].
  - exact Hm.
Qed.

Lemma preserves_for_each {X S} (xs : list X) (body : X -> S -> M S) :
  (forall x a, preserves R (body x a)) ->
  forall acc, preserves R (for_each xs body acc).
Proof.
  intro Hb. induction xs as [|x rest IH]; intro acc; cbn [for_each].
  - apply preserves_ret.
  - apply preserves_bind; auto.
Qed.

Lemma preserves_random : preserves R random.
Proof. intro s. apply R_advance. Qed.

Lemma preserves_uniform a b : preserves R (uniform a b).
Proof.
  unfold uniform. apply preserves_bind; [apply preserves_random|].
  intro. apply preserves_ret.
Qed.

Lemma preserves_randint a b : preserves R (randint a b).
Proof.
  unfold randint. destruct (b <? a); [apply preserves_raise|].
  apply preserves_bind; [apply preserves_random|]. intro. apply preserves_ret.
Qed.

Lemma preserves_image_new {P} mode w h (fill : P) :
  preserves R (image_new mode w h fill).
Proof.
  intro s. unfold image_new. destruct ((w <? 0) || (h <? 0)); cbn [snd]; auto.
Qed.

Lemma preserves_effect_noise w h sigma : preserves R (effect_noise w h sigma).
Proof.
  intro s. unfold effect_noise.
  destruct (effect_noise_px (w, h) sigma (c_rand s)) as [[f c']|]; cbn [snd];
    auto.
Qed.

Lemma preserves_py_range a b c : preserves R (py_range a b c).
Proof.
  unfold py_range. destruct (range3 a b c);
    [apply preserves_ret | apply preserves_raise].
Qed.

Ltac step_preserves :=
  lazymatch goal with
  | |- preserves _ (bind _ _) => apply preserves_bind; [|intro]
  | |- preserves _ (for_each _ _ _) => apply preserves_for_each; intros
  | |- preserves _ (if ?b then _ else _) => destruct b
  | |- preserves _ (match ?o with Some _ => _ | None => _ end) => destruct o
  | |- preserves _ (ret _) => apply preserves_ret
  | |- preserves _ (raise _) => apply preserves_raise
  | |- preserves _ random => apply preserves_random
  | |- preserves _ (uniform _ _) => apply preserves_uniform
  | |- preserves _ (randint _ _) => apply preserves_randint
  | |- preserves _ (image_new _ _ _ _) => apply preserves_image_new
  | |- preserves _ (effect_noise _ _ _) => apply preserves_effect_noise
  | |- preserves _ (py_range _ _ _) => apply preserves_py_range
  end.

Lemma preserves_render_text f w h fs rot chs :
  forall x tl, preserves R (render_text f w h fs rot chs x tl).
Proof.
  induction chs as [|ch rest IH]; intros x tl; cbn [render_text].
  - apply preserves_ret.
  - apply preserves_bind.
    + unfold render_glyph. repeat step_preserves.
    + intro g. destruct (x + iw g >? w - 20); [apply preserves_ret|].
      apply preserves_bind; [apply preserves_randint|]. intro. apply IH.
Qed.

Lemma preserves_build_mesh w h ms d : preserves R (build_mesh w h ms d).
Proof.
  unfold build_mesh. destruct ms as [nx ny].
  unfold mesh_cell, rand_offset. repeat step_preserves.
Qed.

Lemma preserves_distort w h d rot mesh c : preserves R (distort w h d rot mesh c).
Proof. unfold distort. repeat step_preserves. Qed.

Lemma preserves_make_noise w h n : preserves R (make_noise w h n).
Proof. unfold make_noise, manual_noise. repeat step_preserves. Qed.

Lemma preserves_make_grid w h gsp g : preserves R (make_grid w h gsp g).
Proof. unfold make_grid. repeat step_preserves. Qed.

Lemma preserves_make_overlay w h n : preserves R (make_overlay w h n).
Proof.
  unfold make_overlay, overlay_line, overlay_dot. repeat step_preserves.
Qed.

(** The buffers that exist once the white base buffer has been created
    are still there when [captcha] returns. *)
Lemma captcha_run_after_base p s l s' :
  captcha_run p s = (Ok l, s') ->
  0 <= resolve_width p /\ 0 <= height p
  /\ R (log_alloc ("RGBA"%string, resolve_width p, height p) s) s'.
Proof.
  intro H. unfold captcha_run in H. cbv zeta in H.
  unfold bind at 1 in H.
  destruct (image_new "RGBA" (resolve_width p) (height p)
              (mkRGBA 255 255 255 255) s) as [[base|e] s1] eqn:Eb;
    [|discriminate].
  apply image_new_inv in Eb. destruct Eb as (Hw & Hh & _ & ->).
  split; [exact Hw|]. split; [exact Hh|].
  match type of H with
  | ?m ?s1 = _ =>
      assert (P : preserves R m);
      [| specialize (P s1); rewrite H in P; exact P]
  end.
  apply preserves_bind; [apply preserves_image_new|]. intro.
  apply preserves_bind; [apply preserves_render_text|]. intro.
  apply preserves_bind; [apply preserves_build_mesh|]. intro.
  apply preserves_bind; [apply preserves_distort|]. intro.
  apply preserves_bind; [apply preserves_make_noise|]. intro.
  apply preserves_bind; [apply preserves_make_grid|]. intro.
  apply preserves_bind; [apply preserves_image_new|]. intro.
  apply preserves_bind; [apply preserves_make_overlay|]. intro.
  apply preserves_ret.
Qed.

End Frame.

Lemma log_extends_refl s : log_extends s s.
Proof. exists []. reflexivity. Qed.

Lemma log_extends_trans a b c : log_extends a b -> log_extends b c -> log_extends a c.
Proof.
  intros [l1 E1] [l2 E2]. exists (l2 ++ l1). rewrite E2, E1.
  now rewrite app_assoc.
Qed.

Lemma log_extends_advance s : log_extends s (advance s).
Proof. exists []. reflexivity. Qed.

Lemma log_extends_log a s : log_extends s (log_alloc a s).
Proof. exists [a]. reflexivity. Qed.

Lemma log_extends_c_rand c s : log_extends s (set_c_rand c s).
Proof. exists []. reflexivity. Qed.

(* ===================================================================== *)
(** ** Parameter checking *)
(* ===================================================================== *)

Lemma captcha_run_log `{BK : Backend} p s l s' :
  captcha_run p s = (Ok l, s') ->
  exists newer,
    allocs s' = newer ++ ("RGBA"%string, resolve_width p, height p) :: allocs s.
Proof.
  intro H.
  destruct (captcha_run_after_base log_extends log_extends_refl
              log_extends_trans log_extends_advance log_extends_log
              log_extends_c_rand p s l s' H) as (_ & _ & newer & E).
  exists newer. exact E.
Qed.

(** C1, as the code has it: the generator has no validation step and never
    raises a ValidationError.  With empty text (a positive size and a
    non-zero grid spacing) it creates its buffers, the white base buffer
    first, and returns an image of the resolved size.  A negative height is
    rejected by the first [Image.new] with the library's ValueError, before
    any buffer exists. *)
Theorem no_validation_step `{BK : Backend} p s :
  (forall e s', captcha p s = (Raised e, s') -> e <> ValidationError)
  /\ (text p = EmptyString ->
      0 < resolve_width p -> 0 < height p -> grid_spacing p <> 0 ->
      exists img s' newer,
        captcha p s = (Ok img, s')
        /\ iw img = resolve_width p /\ ih img = height p
        /\ allocs s'
           = newer ++ ("RGBA"%string, resolve_width p, height p) :: allocs s)
  /\ (height p < 0 ->
      captcha p s = (Raised (ValueError "Width and height must be >= 0"), s)).
Proof.
  split; [|split].
  - intros e s' H. unfold captcha in H.
    assert (U : unvalidated (l <- captcha_run p ;; ret (l_out l))).
    { apply unvalidated_bind; [apply unvalidated_captcha_run|].
      intro. apply unvalidated_ret. }
    exact (U s e s' H).
  - intros Ht Hw Hh Hg.
    destruct (captcha_run_total p ltac:(lia) ltac:(lia)
                ltac:(intro C; contradiction) Hg s) as (l & s' & Hl).
    destruct (captcha_run_log p s l s' Hl) as (newer & Elog).
    assert (Hc : captcha p s = (Ok (l_out l), s')).
    { unfold captcha, bind. rewrite Hl. reflexivity. }
    exists (l_out l), s', newer. split; [exact Hc|].
    destruct (run_out_size p s l s' Hl) as [E1 E2].
    auto.
  - intro Hh. unfold captcha, captcha_run. cbv zeta. unfold bind, image_new.
    destruct (height p <? 0) eqn:E; [|apply Z.ltb_ge in E; lia].
    rewrite orb_true_r. reflexivity.
Qed.

Lemma no_validation_step_witness :
  exists img s' newer,
    @captcha Simple.backend Demo.scenario_c Demo.s0 = (Ok img, s')
    /\ iw img = 220 /\ ih img = 50
    /\ allocs s' = newer ++ [("RGBA"%string, 220, 50)].
Proof.
  apply (no_validation_step (BK := Simple.backend) Demo.scenario_c Demo.s0).
  - reflexivity.
  - reflexivity.
  - reflexivity.
  - discriminate.
Defined.

(** C1 as written fails: Scenario C of the specification (empty text, every
    other parameter at its default) is an invalid parameter set, yet the
    run raises nothing: it returns a 220x50 image after creating five
    buffers through [Image.new]. *)
Lemma empty_text_accepted :
  spec_invalid Demo.scenario_c
  /\ succeeded (Demo.run Demo.scenario_c Demo.s0) = true
  /\ iw (l_out (Demo.locals Demo.scenario_c Demo.s0)) = 220
  /\ ih (l_out (Demo.locals Demo.scenario_c Demo.s0)) = 50
  /\ allocs (snd (Demo.run Demo.scenario_c Demo.s0))
     = [ ("RGBA"%string, 220, 50); ("L"%string, 220, 50);
         ("L"%string, 220, 50); ("RGBA"%string, 220, 50);
         ("RGBA"%string, 220, 50) ].
Proof.
  split; [left; reflexivity|].
  repeat split; vm_compute; reflexivity.
Qed.

(* ===================================================================== *)
(** ** Sources of randomness *)
(* ===================================================================== *)





Lemma range_length n : List.length (range n) = Z.to_nat n.
Proof. unfold range. now rewrite length_map, length_seq. Qed.





(* ===================================================================== *)
(** ** Further properties: when the generator returns *)
(* ===================================================================== *)

Lemma same_tape_refl s : same_tape s s.
Proof. reflexivity. Qed.

Lemma same_tape_trans a b c : same_tape a b -> same_tape b c -> same_tape a c.
Proof. unfold same_tape. intros E1 E2. now rewrite E2. Qed.

Lemma tape_valid_same s s' : same_tape s s' -> tape_valid s -> tape_valid s'.
Proof. unfold same_tape, tape_valid. intros E H n. rewrite E. apply H. Qed.

(** A loop invariant that also sees the elements done so far and the world. *)
Lemma for_each_inv_idx {X S} (I : list X -> S -> World -> Prop)
    (body : X -> S -> M S) :
  (forall done x a s a' s',
     body x a s = (Ok a', s') -> I done a s -> I (done ++ [x]) a' s') ->
  forall xs done acc s r s',
    for_each xs body acc s = (Ok r, s') -> I done acc s -> I (done ++ xs) r s'.
Proof.
  intros Hb xs. induction xs as [|x rest IH]; intros done acc s r s' H Hi.
  - apply ret_ok_inv in H. destruct H as [-> ->]. now rewrite app_nil_r.
  - cbn [for_each] in H. inv_bind H as a s1 Ha.
    replace (done ++ x :: rest) with ((done ++ [x]) ++ rest)
      by (rewrite <- app_assoc; reflexivity).
    eapply IH; [exact H|]. eapply Hb; eauto.
Qed.

Lemma ch_w_quot fs : ch_w fs = Z.quot (fs * 105) 100 + 8.
Proof. reflexivity. Qed.

Lemma ch_w_nonneg_iff fs : 0 <= ch_w fs <-> -8 <= fs.
Proof. rewrite ch_w_quot. Z.to_euclidean_division_equations. lia. Qed.

Lemma resolve_width_default p : width p = None -> 220 <= resolve_width p.
Proof. unfold resolve_width. intros ->. lia. Qed.

Lemma well_sized_sizes p :
  well_sized p <->
  0 <= resolve_width p /\ 0 <= height p
  /\ (text p <> EmptyString -> 0 <= ch_w (font_size p))
  /\ grid_spacing p <> 0.
Proof.
  unfold well_sized. split.
  - intros (Hw & Hh & Hf & Hg). repeat split; auto.
    + destruct (width p) as [v|] eqn:E.
      * unfold resolve_width. rewrite E. now apply Hw.
      * pose proof (resolve_width_default p E). lia.
    + intro Hne. apply ch_w_nonneg_iff. destruct Hf as [Ht|Hf]; [contradiction|lia].
  - intros (Hw & Hh & Hf & Hg). repeat split; auto.
    + intros v E. unfold resolve_width in Hw. now rewrite E in Hw.
    + destruct (text p) eqn:Et; [now left|right].
      apply ch_w_nonneg_iff. apply Hf. discriminate.
Qed.

Section Returns.
Context `{BK : Backend}.

Lemma render_text_needs_glyph f w h fs rot ch rest x tl s r s' :
  render_text f w h fs rot (ch :: rest) x tl s = (Ok r, s') -> 0 <= ch_w fs.
Proof.
  cbn [render_text]. intro H. inv_bind H as g s1 Hg.
  unfold render_glyph in Hg. inv_bind Hg as im s2 Hnew.
  apply image_new_inv in Hnew. tauto.
Qed.

Lemma make_grid_needs_step w h gsp g s r s' :
  make_grid w h gsp g s = (Ok r, s') -> gsp <> 0.
Proof.
  unfold make_grid. intro H. inv_bind H as g0 s1 Hnew.
  inv_bind H as gxs s2 Hr. unfold py_range, range3 in Hr.
  intro E. rewrite E in Hr. cbn in Hr. discriminate Hr.
Qed.

Lemma captcha_run_well_sized p s l s' :
  captcha_run p s = (Ok l, s') -> well_sized p.
Proof.
  intro H. apply well_sized_sizes.
  pose proof (captcha_run_inv p s l s' H) as I. cbv zeta in I.
  destruct I as (Hw & Hh & _).
  unfold captcha_run in H. cbv zeta in H.
  inv_bind H as base sa Hbase. inv_bind H as tl0 sb Htl0.
  inv_bind H as tl sc Htl. inv_bind H as mesh sd Hmesh.
  inv_bind H as composed se Hdist. inv_bind H as nz sf Hnz.
  inv_bind H as gr sg Hgr.
  repeat split; auto.
  - intro Hne. destruct (text p) as [|c t] eqn:Et; [contradiction|].
    cbn [list_ascii_of_string] in Htl.
    eapply render_text_needs_glyph; exact Htl.
  - eapply make_grid_needs_step; exact Hgr.
Qed.

(** X1: [captcha] returns an image exactly on well-sized parameters: no
    negative explicit width, no negative height, a font size of at least -8
    unless the text is empty, and a grid spacing other than zero.  On every
    other parameter set it raises. *)
Theorem captcha_returns_iff p s :
  (exists img s', captcha p s = (Ok img, s')) <-> well_sized p.
Proof.
  split.
  - intros (img & s' & H). apply captcha_ok_inv in H.
    destruct H as (l & Hl & _). eapply captcha_run_well_sized; exact Hl.
  - intro Hws. apply well_sized_sizes in Hws.
    destruct Hws as (Hw & Hh & Hf & Hg).
    destruct (captcha_run_total p Hw Hh Hf Hg s) as (l & s' & Hl).
    exists (l_out l), s'. unfold captcha, bind. now rewrite Hl.
Qed.

(** *** Fonts *)

Lemma first_font_truetype ps size path size' :
  first_font ps size = TrueType path size' ->
  size' = size /\ font_available path size = true
  /\ exists earlier later,
       ps = earlier ++ path :: later
       /\ forall q, In q earlier -> font_available q size = false.
Proof.
  induction ps as [|q rest IH]; cbn [first_font]; intro H; [discriminate|].
  destruct (font_available q size) eqn:E.
  - inversion H; subst. repeat split; auto.
    exists [], rest. split; [reflexivity|]. intros ? [].
  - destruct (IH H) as (Es & Ha & earlier & later & -> & Hn).
    repeat split; auto. exists (q :: earlier), later.
    split; [reflexivity|]. intros r [<-|Hr]; auto.
Qed.

Lemma first_font_default ps size :
  first_font ps size = DefaultFont <->
  forall q, In q ps -> font_available q size = false.
Proof.
  induction ps as [|q rest IH]; cbn [first_font].
  - split; [intros _ ? []|reflexivity].
  - destruct (font_available q size) eqn:E.
    + split; [discriminate|]. intro H. rewrite (H q) in E; [discriminate|now left].
    + rewrite IH. split.
      * intros H r [<-|Hr]; auto.
      * intros H r Hr. apply H. now right.
Qed.

(** X2: font resolution never hands out a face that did not load.  A given
    non-empty path that loads is used; otherwise the first candidate of the
    fixed list that loads, in list order; the built-in font exactly when
    nothing loads. *)
Theorem font_resolution p :
  (forall path,
     font_path p = Some path -> path <> EmptyString ->
     font_available path (font_size p) = true ->
     load_font p = TrueType path (font_size p))
  /\ (forall path size,
        load_font p = TrueType path size ->
        size = font_size p /\ font_available path size = true
        /\ (font_path p = Some path
            \/ exists earlier later,
                 candidates = earlier ++ path :: later
                 /\ forall q, In q earlier -> font_available q size = false))
  /\ (load_font p = DefaultFont ->
        forall q, In q candidates -> font_available q (font_size p) = false).
Proof.
  unfold load_font, _load_font. split; [|split].
  - intros path -> Hne Ha.
    destruct path as [|c t]; [contradiction|]. cbn [String.length Nat.eqb].
    now rewrite Ha.
  - intros path size H.
    destruct (font_path p) as [fp|].
    + destruct (String.length fp =? 0)%nat.
      * apply first_font_truetype in H. destruct H as (-> & Ha & He).
        repeat split; auto.
      * destruct (font_available fp (font_size p)) eqn:Ea.
        -- inversion H; subst. repeat split; auto.
        -- apply first_font_truetype in H. destruct H as (-> & Ha & He).
           repeat split; auto.
    + apply first_font_truetype in H. destruct H as (-> & Ha & He).
      repeat split; auto.
  - intro H.
    destruct (font_path p) as [fp|].
    + destruct (String.length fp =? 0)%nat.
      * now apply first_font_default.
      * destruct (font_available fp (font_size p)); [discriminate|].
        now apply first_font_default.
    + now apply first_font_default.
Qed.

End Returns.

Lemma font_resolution_witness :
  @load_font Simple.backend Demo.scenario_a = DefaultFont
  /\ forall q, In q candidates -> @font_available Simple.backend q 30 = false.
Proof.
  split; [reflexivity|].
  apply (font_resolution (BK := Simple.backend) Demo.scenario_a). reflexivity.
Defined.

(** *** The handler *)

Lemma request_width t :
  resolve_width (request_params t) = Z.max 220 (18 * len t + 60).
Proof.
  unfold resolve_width, request_params. cbn [width text font_size].
  f_equal. f_equal. unfold py_int. cbn [Qnum Qden Qmult inject_Z].
  Z.to_euclidean_division_equations; lia.
Qed.

Lemma request_well_sized t : well_sized (request_params t).
Proof.
  unfold well_sized, request_params.
  cbn [width height text font_size grid_spacing].
  repeat split; try discriminate; lia.
Qed.

(** X3: the handler returns on every request and never raises.  A list of
    any other length than 5 gets the error payload and leaves the state
    untouched; a list of 5 gets the token and a data URI of an image that is
    50 high and max(220, 18 * len(text) + 60) wide. *)
Theorem generate_captcha_total `{BK : Backend} (png : Img RGBA -> string)
    (numbers : list Z) (s : World) :
  exists resp s',
    generate_captcha png numbers s = (Ok resp, s')
    /\ ((List.length numbers <> 5%nat
         /\ resp = ErrorPayload "Must provide exactly 5 numbers" /\ s' = s)
        \/ (List.length numbers = 5%nat
            /\ exists img,
                 resp = CaptchaPayload "dummy-token"
                          (String.append "data:image/png;base64," (png img))
                 /\ iw img = Z.max 220 (18 * len (join (map str numbers)) + 60)
                 /\ ih img = 50)).
Proof.
  unfold generate_captcha, generate_captcha_with.
  destruct (List.length numbers =? 5)%nat eqn:E; cbn [negb].
  - apply Nat.eqb_eq in E.
    set (t := join (map str numbers)).
    pose proof (request_well_sized t) as Hws. apply well_sized_sizes in Hws.
    destruct Hws as (Hw & Hh & Hf & Hg).
    destruct (captcha_run_total (request_params t) Hw Hh Hf Hg s)
      as (l & s' & Hl).
    destruct (run_out_size (request_params t) s l s' Hl) as [Ew Eh].
    exists (CaptchaPayload "dummy-token"
              (String.append "data:image/png;base64," (png (l_out l)))), s'.
    split.
    + unfold captcha, bind. rewrite Hl. reflexivity.
    + right. split; [exact E|]. exists (l_out l).
      split; [reflexivity|]. rewrite Ew, Eh, request_width. auto.
  - apply Nat.eqb_neq in E. eexists. eexists. split; [reflexivity|].
    left. auto.
Qed.

(* ===================================================================== *)
(** ** Further properties: the mesh *)
(* ===================================================================== *)

Lemma for_each_collect {X S B} (proj : S -> list B) (F : X -> list B)
    (body : X -> S -> M S) :
  (forall x a s a' s', body x a s = (Ok a', s') -> proj a' = proj a ++ F x) ->
  forall xs acc s r s',
    for_each xs body acc s = (Ok r, s') -> proj r = proj acc ++ flat_map F xs.
Proof.
  intros Hb xs. induction xs as [|x rest IH]; intros acc s r s' H.
  - apply ret_ok_inv in H. destruct H as [-> _]. cbn. now rewrite app_nil_r.
  - cbn [for_each] in H. inv_bind H as a s1 Ha.
    rewrite (IH _ _ _ _ H), (Hb _ _ _ _ _ Ha). cbn [flat_map].
    now rewrite app_assoc.
Qed.

Lemma flat_map_single {X B} (f : X -> B) (xs : list X) :
  flat_map (fun x => [f x]) xs = map f xs.
Proof. induction xs as [|x rest IH]; cbn; [reflexivity | now rewrite IH]. Qed.

Lemma length_flat_map_const {X B} (F : X -> list B) (n : nat) (xs : list X) :
  (forall x, List.length (F x) = n) ->
  List.length (flat_map F xs) = (List.length xs * n)%nat.
Proof.
  intro H. induction xs as [|x rest IH]; cbn; [reflexivity|].
  now rewrite length_app, H, IH.
Qed.

Lemma py_int_opp q : py_int (- q) = - py_int q.
Proof.
  destruct q as [n d]. unfold py_int. cbn [Qopp Qnum Qden].
  apply Z.quot_opp_l. discriminate.
Qed.

(** Truncation moves a number toward zero and not past it. *)
Lemma py_int_toward_zero q :
  ((0 <= q)%Q -> (0 <= inject_Z (py_int q))%Q /\ (inject_Z (py_int q) <= q)%Q)
  /\ ((q <= 0)%Q -> (q <= inject_Z (py_int q))%Q /\ (inject_Z (py_int q) <= 0)%Q).
Proof.
  assert (P : forall r, (0 <= r)%Q ->
                (0 <= inject_Z (py_int r))%Q /\ (inject_Z (py_int r) <= r)%Q).
  { intros r Hr. split.
    - change 0%Q with (inject_Z 0). rewrite <- Zle_Qle. now apply py_int_nonneg.
    - rewrite py_int_floor by exact Hr. apply Qfloor_le. }
  split; [apply P|]. intro Hq.
  destruct (P (- q)%Q ltac:(lra)) as [H1 H2].
  rewrite py_int_opp, inject_Z_opp in H1, H2. lra.
Qed.

Lemma py_max_ge_l a b : (a <= py_max a b)%Q.
Proof.
  unfold py_max. destruct (Qltb a b) eqn:E; [apply Qltb_lt in E|]; lra.
Qed.

(** A sample of [int(random.uniform(-m, m))] stays within [m] of zero. *)
Lemma offset_bound m u :
  (0 <= m)%Q -> (0 <= u)%Q -> (u < 1)%Q ->
  let v := py_int (- m + (m - - m) * u) in
  (- m <= inject_Z v)%Q /\ (inject_Z v <= m)%Q.
Proof.
  intros Hm Hu0 Hu1 v. unfold v.
  set (q := (- m + (m - - m) * u)%Q).
  assert (Hq : (- m <= q)%Q /\ (q <= m)%Q) by (unfold q; split; nra).
  destruct (py_int_toward_zero q) as [Hp Hn].
  destruct (Qlt_le_dec q 0) as [L|L].
  - destruct (Hn ltac:(lra)). lra.
  - destruct (Hp L). lra.
Qed.

Lemma mesh_cell_inv cw chh mx my i j s c s' :
  mesh_cell cw chh mx my i j s = (Ok c, s') ->
  fst c = cell_box cw chh i j
  /\ same_tape s s'
  /\ ((0 <= mx)%Q -> (0 <= my)%Q -> tape_valid s -> corners_within mx my c).
Proof.
  intro H. cbv [mesh_cell rand_offset uniform random bind ret] in H.
  cbn [tape pos advance] in H. inversion H; subst; clear H.
  split; [reflexivity|]. split; [reflexivity|].
  intros Hx Hy Hv. unfold corners_within.
  repeat match goal with
  | |- context [inject_Z (?a + ?d - ?a)] =>
      replace (a + d - a) with d by lia
  end.
  repeat split;
    first [ apply (offset_bound mx _ Hx); apply Hv
          | apply (offset_bound my _ Hy); apply Hv ].
Qed.

(** The boxes of the mesh, in the order the loops build them. *)
Lemma build_mesh_boxes w h nx ny d s mesh s' :
  build_mesh w h (nx, ny) d s = (Ok mesh, s') ->
  let cw := (inject_Z w / inject_Z (Z.max 1 nx))%Q in
  let chh := (inject_Z h / inject_Z (Z.max 1 ny))%Q in
  map fst mesh
  = flat_map (fun i => map (cell_box cw chh i) (range (Z.max 1 ny)))
             (range (Z.max 1 nx)).
Proof.
  intros H cw chh. unfold build_mesh in H. fold cw chh in H.
  change (map fst mesh) with (map fst (@nil (box * quad)) ++ map fst mesh).
  apply (for_each_collect (map fst)
           (fun i => map (cell_box cw chh i) (range (Z.max 1 ny)))
           _ ) in H; [cbn [map app] in *; exact H|].
  intros i a t a' t' Hi. rewrite <- (flat_map_single (cell_box cw chh i)).
  eapply (for_each_collect (map fst) (fun j => [cell_box cw chh i j]));
    [|exact Hi].
  intros j b u b' u' Hj. inv_bind Hj as c u1 Hc. inv_ret Hj.
  apply mesh_cell_inv in Hc. destruct Hc as (Ec & _).
  rewrite map_app. cbn [map]. now rewrite Ec.
Qed.

Lemma build_mesh_corners w h nx ny d s mesh s' :
  build_mesh w h (nx, ny) d s = (Ok mesh, s') ->
  tape_valid s ->
  let cw := (inject_Z w / inject_Z (Z.max 1 nx))%Q in
  let chh := (inject_Z h / inject_Z (Z.max 1 ny))%Q in
  Forall (corners_within (py_max 1 (cw * 0.25 * d)) (py_max 1 (chh * 0.30 * d)))
         mesh.
Proof.
  intros H Hv cw chh. unfold build_mesh in H. fold cw chh in H.
  set (mx := py_max 1 (cw * 0.25 * d)) in *.
  set (my := py_max 1 (chh * 0.30 * d)) in *.
  assert (Hmx : (0 <= mx)%Q) by (pose proof (py_max_ge_l 1 (cw * 0.25 * d)); unfold mx; lra).
  assert (Hmy : (0 <= my)%Q) by (pose proof (py_max_ge_l 1 (chh * 0.30 * d)); unfold my; lra).
  set (I := fun (_ : list Z) (m : list (box * quad)) (t : World) =>
              tape_valid t /\ Forall (corners_within mx my) m).
  assert (G : I ([] ++ range (Z.max 1 nx)) mesh s'); [|apply G].
  eapply (for_each_inv_idx I); [|exact H|split; [exact Hv|constructor]].
  intros done i a t a' t' Hi Ha.
  assert (G : I ([] ++ range (Z.max 1 ny)) a' t'); [|exact G].
  eapply (for_each_inv_idx I); [|exact Hi|exact Ha].
  intros done' j b u b' u' Hj [Hvu Hb]. inv_bind Hj as c u1 Hc.
  apply ret_ok_inv in Hj. destruct Hj as [-> ->].
  apply mesh_cell_inv in Hc. destruct Hc as (_ & Ht & Hc).
  split; [exact (tape_valid_same u u1 Ht Hvu)|].
  apply Forall_app. split; [exact Hb|]. constructor; [|constructor]. auto.
Qed.

(** A non-decreasing sequence of cuts from [b 0] to [b n] puts every value
    in between into exactly one step. *)
Lemma step_search (b : Z -> Z) (n x : Z) :
  0 <= n -> b 0 <= x < b n ->
  exists i, 0 <= i < n /\ b i <= x < b (i + 1).
Proof.
  intro Hn. revert x. pattern n. apply natlike_ind; [| |exact Hn].
  - intros x H. lia.
  - intros m Hm IH x H. unfold Z.succ in *.
    destruct (Z_lt_le_dec x (b m)) as [L|L].
    + destruct (IH x ltac:(lia)) as (i & Hi & Hx). exists i. split; [lia|exact Hx].
    + exists m. split; lia.
Qed.

Lemma step_unique (b : Z -> Z) (i i' x : Z) :
  (forall a c, 0 <= a <= c -> b a <= b c) ->
  0 <= i -> 0 <= i' ->
  b i <= x < b (i + 1) -> b i' <= x < b (i' + 1) -> i' = i.
Proof.
  intros Hm Hi Hi' H H'.
  destruct (Z.lt_trichotomy i i') as [L|[E|L]]; [|auto|].
  - pose proof (Hm (i + 1) i' ltac:(lia)). lia.
  - pose proof (Hm (i' + 1) i ltac:(lia)). lia.
Qed.

(** The cuts [int(i * (size / n))] along one axis. *)
Lemma cuts_axis (size n : Z) :
  0 <= size -> 1 <= n ->
  let b := fun i => py_int (inject_Z i * (inject_Z size / inject_Z n)) in
  b 0 = 0 /\ b n = size /\ forall a c, 0 <= a <= c -> b a <= b c.
Proof.
  intros Hs Hn b.
  assert (Hc : (0 <= inject_Z size / inject_Z n)%Q).
  { apply Qle_shift_div_l.
    - change 0%Q with (inject_Z 0). rewrite <- Zlt_Qlt. lia.
    - rewrite Qmult_0_l. change 0%Q with (inject_Z 0). rewrite <- Zle_Qle. lia. }
  split; [|split].
  - unfold b. apply py_int_zero. unfold inject_Z at 1. ring.
  - unfold b.
    assert (E : (inject_Z n * (inject_Z size / inject_Z n) == inject_Z size)%Q).
    { field. intro E. unfold Qeq in E. cbn [Qnum Qden inject_Z] in E. lia. }
    rewrite py_int_floor.
    + rewrite (Qfloor_comp _ _ E). apply Qfloor_Z.
    + rewrite E. change 0%Q with (inject_Z 0). rewrite <- Zle_Qle. lia.
  - intros a c Hac. unfold b.
    assert (Ha : (0 <= inject_Z a)%Q).
    { change 0%Q with (inject_Z 0). rewrite <- Zle_Qle. lia. }
    assert (Hle : (inject_Z a <= inject_Z c)%Q) by (rewrite <- Zle_Qle; lia).
    apply py_int_mono; nra.
Qed.

(** X4: for a canvas of non-negative size, the mesh has
    max(1, nx) * max(1, ny) cells, built column by column, whose source
    boxes are the rectangles between consecutive cuts int(i * w / nx) and
    int(j * h / ny); every pixel of the canvas lies in exactly one of them:
    the boxes tile the canvas without gap or overlap. *)
Theorem mesh_tiles_canvas w h nx ny d s mesh s' :
  0 <= w -> 0 <= h ->
  build_mesh w h (nx, ny) d s = (Ok mesh, s') ->
  let cw := (inject_Z w / inject_Z (Z.max 1 nx))%Q in
  let chh := (inject_Z h / inject_Z (Z.max 1 ny))%Q in
  map fst mesh
  = flat_map (fun i => map (cell_box cw chh i) (range (Z.max 1 ny)))
             (range (Z.max 1 nx))
  /\ List.length mesh = (Z.to_nat (Z.max 1 nx) * Z.to_nat (Z.max 1 ny))%nat
  /\ forall x y, 0 <= x < w -> 0 <= y < h ->
       exists i j,
         0 <= i < Z.max 1 nx /\ 0 <= j < Z.max 1 ny
         /\ in_cell (cell_box cw chh i j) x y
         /\ forall i' j',
              0 <= i' < Z.max 1 nx -> 0 <= j' < Z.max 1 ny ->
              in_cell (cell_box cw chh i' j') x y -> i' = i /\ j' = j.
Proof.
  intros Hw Hh H cw chh.
  pose proof (build_mesh_boxes w h nx ny d s mesh s' H) as Eb.
  cbv zeta in Eb. fold cw chh in Eb.
  split; [exact Eb|]. split.
  - rewrite <- (length_map fst), Eb.
    rewrite (length_flat_map_const _ (Z.to_nat (Z.max 1 ny))).
    + now rewrite range_length.
    + intro i. now rewrite length_map, range_length.
  - intros x y Hx Hy.
    destruct (cuts_axis w (Z.max 1 nx) Hw ltac:(lia)) as (X0 & Xn & Xm).
    destruct (cuts_axis h (Z.max 1 ny) Hh ltac:(lia)) as (Y0 & Yn & Ym).
    fold cw in X0, Xn, Xm. fold chh in Y0, Yn, Ym.
    destruct (step_search (fun i => py_int (inject_Z i * cw)) (Z.max 1 nx) x
                ltac:(lia) ltac:(cbv beta; lia)) as (i & Hi & Hxi).
    destruct (step_search (fun j => py_int (inject_Z j * chh)) (Z.max 1 ny) y
                ltac:(lia) ltac:(cbv beta; lia)) as (j & Hj & Hyj).
    exists i, j. split; [exact Hi|]. split; [exact Hj|].
    split; [split; assumption|].
    intros i' j' Hi' Hj' [Hxi' Hyj']. split.
    + apply (step_unique (fun i => py_int (inject_Z i * cw)) i i' x Xm);
        [lia | lia | exact Hxi | exact Hxi'].
    + apply (step_unique (fun j => py_int (inject_Z j * chh)) j j' y Ym);
        [lia | lia | exact Hyj | exact Hyj'].
Qed.

Lemma mesh_tiles_canvas_witness :
  List.length (value_or [] (build_mesh 220 50 (1, 11) 0 Demo.s0)) = 11%nat.
Proof.
  destruct (mesh_tiles_canvas 220 50 1 11 0 Demo.s0
              (value_or [] (build_mesh 220 50 (1, 11) 0 Demo.s0))
              (snd (build_mesh 220 50 (1, 11) 0 Demo.s0))
              ltac:(lia) ltac:(lia)) as (_ & E & _).
  - apply succeeded_eq. vm_compute. reflexivity.
  - exact E.
Defined.

(** X5: on a tape of unit samples, every corner of every destination
    quadrilateral lies within (max_offset_x, max_offset_y) of the box corner
    it was displaced from, where max_offset = max(1, cell size * factor *
    distortion): the warp moves no mesh point further than that. *)
Theorem mesh_corners_bounded w h nx ny d s mesh s' :
  tape_valid s ->
  build_mesh w h (nx, ny) d s = (Ok mesh, s') ->
  let cw := (inject_Z w / inject_Z (Z.max 1 nx))%Q in
  let chh := (inject_Z h / inject_Z (Z.max 1 ny))%Q in
  Forall (corners_within (py_max 1 (cw * 0.25 * d)) (py_max 1 (chh * 0.30 * d)))
         mesh.
Proof. intros Hv H. exact (build_mesh_corners w h nx ny d s mesh s' H Hv). Qed.

Lemma demo_tape_valid : tape_valid Demo.s0.
Proof.
  intro n. unfold Demo.s0, Demo.demo_tape. cbn [tape].
  pose proof (Nat.mod_upper_bound (n * 37) 100 ltac:(discriminate)).
  unfold Qle, Qlt. cbn [Qnum Qden]. lia.
Qed.

Lemma mesh_corners_bounded_witness :
  Forall (corners_within (py_max 1 (inject_Z 220 / inject_Z (Z.max 1 1) * 0.25 * 0))
                         (py_max 1 (inject_Z 50 / inject_Z (Z.max 1 11) * 0.30 * 0)))
         (value_or [] (build_mesh 220 50 (1, 11) 0 Demo.s0)).
Proof.
  apply (mesh_corners_bounded 220 50 1 11 0 Demo.s0
           (value_or [] (build_mesh 220 50 (1, 11) 0 Demo.s0))
           (snd (build_mesh 220 50 (1, 11) 0 Demo.s0))).
  - exact demo_tape_valid.
  - apply succeeded_eq. vm_compute. reflexivity.
Defined.

(* ===================================================================== *)
(** ** Further properties: the grid *)
(* ===================================================================== *)

Lemma fold_rect_px {P} (x0 y0 x1 y1 : Z -> Z) (fill : P) (vs : list Z) :
  forall (g0 : Img P) x y,
    px (fold_left (fun g v => draw_rectangle g (x0 v) (y0 v) (x1 v) (y1 v) fill)
                  vs g0) x y
    = if existsb (fun v => (x0 v <=? x) && (x <=? x1 v)
                           && (y0 v <=? y) && (y <=? y1 v)) vs
      then fill else px g0 x y.
Proof.
  induction vs as [|v rest IH]; intros g0 x y; cbn [fold_left existsb].
  - reflexivity.
  - rewrite IH. unfold draw_rectangle. cbn [px].
    destruct (existsb _ rest); [now rewrite orb_true_r|].
    rewrite orb_false_r. reflexivity.
Qed.

(** [range(start, stop, step)] with a positive step: the values
    start + k*step below stop. *)
Lemma range3_positive start stop step l v :
  0 < step -> range3 start stop step = Some l ->
  In v l <-> exists k, 0 <= k /\ v = start + k * step /\ v < stop.
Proof.
  intros Hs H. unfold range3 in H.
  destruct (step =? 0) eqn:E0; [apply Z.eqb_eq in E0; lia|].
  destruct (0 <? step) eqn:E1; [|apply Z.ltb_ge in E1; lia].
  inversion H; subst; clear H. rewrite in_map_iff.
  set (q := (stop - start + step - 1) / step).
  assert (Hq : forall k, 0 <= k -> (k < q <-> start + k * step < stop)).
  { intros k Hk. unfold q. split; intro L.
    - assert (k + 1 <= (stop - start + step - 1) / step) by lia.
      assert (step * (k + 1) <= stop - start + step - 1).
      { eapply Z.le_trans; [|apply (Z.mul_div_le _ step); lia].
        apply Z.mul_le_mono_nonneg_l; lia. }
      lia.
    - assert (k + 1 <= (stop - start + step - 1) / step); [|lia].
      apply Z.div_le_lower_bound; lia. }
  split.
  - intros (k & <- & Hk). apply in_seq in Hk.
    exists (Z.of_nat k). split; [lia|]. split; [reflexivity|].
    apply Hq; lia.
  - intros (k & Hk & -> & Hlt). exists (Z.to_nat k).
    split; [now rewrite Z2Nat.id|].
    apply in_seq. apply Hq in Hlt; [|exact Hk]. lia.
Qed.

(** With a negative step and a stop that is not below the start, the range
    is empty. *)
Lemma range3_negative start stop step l :
  step < 0 -> start <= stop -> range3 start stop step = Some l -> l = [].
Proof.
  intros Hs Hle H. unfold range3 in H.
  destruct (step =? 0) eqn:E0; [apply Z.eqb_eq in E0; lia|].
  destruct (0 <? step) eqn:E1; [apply Z.ltb_lt in E1; lia|].
  inversion H; subst; clear H.
  assert (E : (start - stop - step - 1) / - step <= 0).
  { assert ((start - stop - step - 1) / - step < 1); [|lia].
    apply Z.div_lt_upper_bound; lia. }
  destruct (Z.to_nat ((start - stop - step - 1) / - step)) eqn:En; [reflexivity|lia].
Qed.

Lemma line_opacity_range g :
  (0 <= g)%Q -> (g <= 1)%Q -> 48 <= line_opacity g <= 208.
Proof.
  intros. unfold line_opacity. split.
  - apply py_int_ge_bound; [unfold inject_Z; lra | lia].
  - apply py_int_le_bound; [unfold inject_Z; lra | lia].
Qed.

Lemma line_w_positive gsp g : 1 <= line_w gsp g.
Proof. unfold line_w. lia. Qed.

Lemma make_grid_px w h gsp g s grid s' :
  make_grid w h gsp g s = (Ok grid, s') ->
  exists gxs gys,
    range3 0 w gsp = Some gxs /\ range3 0 h gsp = Some gys
    /\ forall x y,
         px grid x y
         = if existsb (fun gy => (0 <=? x) && (x <=? w)
                                 && (gy - line_w gsp g <=? y)
                                 && (y <=? gy + line_w gsp g)) gys
           then clip8 (line_opacity g)
           else if existsb (fun gx => (gx - line_w gsp g <=? x)
                                      && (x <=? gx + line_w gsp g)
                                      && (0 <=? y) && (y <=? h)) gxs
                then clip8 (line_opacity g) else 0.
Proof.
  unfold make_grid. intro H. inv_bind H as g0 s1 Hnew.
  apply image_new_inv in Hnew. destruct Hnew as (_ & _ & -> & _).
  inv_bind H as gxs s2 Hx. inv_bind H as gys s3 Hy. inv_ret H.
  unfold py_range in Hx, Hy.
  destruct (range3 0 w gsp) as [lx|] eqn:Ex; [|discriminate].
  destruct (range3 0 h gsp) as [ly|] eqn:Ey; [|discriminate].
  apply ret_ok_inv in Hx. destruct Hx as [-> _].
  apply ret_ok_inv in Hy. destruct Hy as [-> _].
  exists lx, ly. split; [reflexivity|]. split; [reflexivity|].
  intros x y.
  pose proof (fold_rect_px (fun _ => 0) (fun gy => gy - line_w gsp g)
                (fun _ => w) (fun gy => gy + line_w gsp g)
                (clip8 (line_opacity g))) as Fy.
  pose proof (fold_rect_px (fun gx => gx - line_w gsp g) (fun _ => 0)
                (fun gx => gx + line_w gsp g) (fun _ => h)
                (clip8 (line_opacity g))) as Fx.
  cbv beta in Fx, Fy. rewrite Fy, Fx. reflexivity.
Qed.

(** X6: for a positive spacing, the grid layer is [line_opacity] (a value
    in 48..208) exactly on the bands of half-width [line_w] (at least 1)
    around the multiples of the spacing that lie on the canvas, and 0
    everywhere else; for a negative spacing both [range] loops are empty and
    the layer stays 0. *)
Theorem grid_bands w h gsp g s grid s' :
  make_grid w h gsp g s = (Ok grid, s') ->
  (0 <= g)%Q -> (g <= 1)%Q ->
  48 <= line_opacity g <= 208 /\ 1 <= line_w gsp g
  /\ (0 < gsp ->
      forall x y,
        (on_band w h gsp (line_w gsp g) x y -> px grid x y = line_opacity g)
        /\ (~ on_band w h gsp (line_w gsp g) x y -> px grid x y = 0))
  /\ (gsp < 0 -> forall x y, px grid x y = 0).
Proof.
  intros H Hg0 Hg1.
  pose proof (line_opacity_range g Hg0 Hg1) as Hop.
  split; [exact Hop|]. split; [apply line_w_positive|].
  assert (Hsz : 0 <= w /\ 0 <= h).
  { unfold make_grid in H. inv_bind H as g0 s1 Hnew.
    apply image_new_inv in Hnew. tauto. }
  destruct (make_grid_px w h gsp g s grid s' H) as (gxs & gys & Ex & Ey & Hpx).
  rewrite (clip8_id (line_opacity g)) in Hpx by lia.
  set (lw := line_w gsp g) in *.
  split.
  - intros Hs x y.
    set (by_ := existsb (fun gy => (0 <=? x) && (x <=? w) && (gy - lw <=? y)
                                   && (y <=? gy + lw)) gys).
    set (bx_ := existsb (fun gx => (gx - lw <=? x) && (x <=? gx + lw)
                                   && (0 <=? y) && (y <=? h)) gxs).
    assert (Hy : by_ = true <->
                 exists k, 0 <= k * gsp < h /\ k * gsp - lw <= y <= k * gsp + lw
                           /\ 0 <= x <= w).
    { unfold by_. rewrite existsb_exists. split.
      - intros (gy & Hin & Hb).
        apply (range3_positive 0 h gsp gys gy Hs Ey) in Hin.
        destruct Hin as (k & Hk & -> & Hlt). exists k.
        rewrite !andb_true_iff, !Z.leb_le in Hb. nia.
      - intros (k & Hk & Hy & Hx). exists (k * gsp). split.
        + apply (range3_positive 0 h gsp gys _ Hs Ey). exists k.
          split; [nia|]. split; lia.
        + rewrite !andb_true_iff, !Z.leb_le. lia. }
    assert (Hx : bx_ = true <->
                 exists k, 0 <= k * gsp < w /\ k * gsp - lw <= x <= k * gsp + lw
                           /\ 0 <= y <= h).
    { unfold bx_. rewrite existsb_exists. split.
      - intros (gx & Hin & Hb).
        apply (range3_positive 0 w gsp gxs gx Hs Ex) in Hin.
        destruct Hin as (k & Hk & -> & Hlt). exists k.
        rewrite !andb_true_iff, !Z.leb_le in Hb. nia.
      - intros (k & Hk & Hxx & Hyy). exists (k * gsp). split.
        + apply (range3_positive 0 w gsp gxs _ Hs Ex). exists k.
          split; [nia|]. split; lia.
        + rewrite !andb_true_iff, !Z.leb_le. lia. }
    rewrite Hpx. fold by_ bx_. unfold on_band. split.
    + intros [Hb|Hb].
      * apply Hx in Hb. rewrite Hb. now destruct by_.
      * apply Hy in Hb. now rewrite Hb.
    + intro Hn.
      destruct by_ eqn:E1; [exfalso; apply Hn; right; now apply Hy|].
      destruct bx_ eqn:E2; [exfalso; apply Hn; left; now apply Hx|].
      reflexivity.
  - intros Hs x y. rewrite Hpx.
    rewrite (range3_negative 0 w gsp gxs Hs ltac:(lia) Ex).
    rewrite (range3_negative 0 h gsp gys Hs ltac:(lia) Ey).
    reflexivity.
Qed.

Lemma grid_bands_witness :
  px (value_or (Demo.blank 0) (make_grid 220 50 16 (1 # 64) Demo.s0)) 16 8 = 50
  /\ px (value_or (Demo.blank 0) (make_grid 220 50 16 (1 # 64) Demo.s0)) 8 8 = 0.
Proof.
  destruct (grid_bands 220 50 16 (1 # 64) Demo.s0
              (value_or (Demo.blank 0) (make_grid 220 50 16 (1 # 64) Demo.s0))
              (snd (make_grid 220 50 16 (1 # 64) Demo.s0)))
    as (_ & _ & Hb & _).
  - apply succeeded_eq. vm_compute. reflexivity.
  - unfold Qle. cbn [Qnum Qden]. lia.
  - unfold Qle. cbn [Qnum Qden]. lia.
  - assert (Elw : line_w 16 (1 # 64) = 1) by (vm_compute; reflexivity).
    assert (Eop : line_opacity (1 # 64) = 50) by (vm_compute; reflexivity).
    rewrite Elw, Eop in Hb. split.
    + apply (Hb ltac:(lia) 16 8). left. exists 1. lia.
    + apply (Hb ltac:(lia) 8 8). intros [(k & H1 & H2 & H3)|(k & H1 & H2 & H3)]; lia.
Defined.

(* ===================================================================== *)
(** ** Further properties: text layer and overlay *)
(* ===================================================================== *)

Lemma uniform_inv a b s v s' :
  uniform a b s = (Ok v, s') ->
  v = (a + (b - a) * tape s (pos s))%Q /\ s' = advance s.
Proof. cbv [uniform random bind ret]. intro H. inversion H. auto. Qed.

Lemma randint_inv a b s v s' :
  randint a b s = (Ok v, s') ->
  a <= b /\ v = a + Qfloor (tape s (pos s) * inject_Z (b - a + 1))
  /\ s' = advance s.
Proof.
  unfold randint. destruct (b <? a) eqn:E; [discriminate|].
  apply Z.ltb_ge in E. cbv [random bind ret]. intro H. inversion H. auto.
Qed.

Section TextAndOverlay.
Context `{BK : Backend}.

Lemma render_glyph_same_tape f h fs rot ch s g s1 :
  render_glyph f h fs rot ch s = (Ok g, s1) -> same_tape s s1.
Proof.
  unfold render_glyph. intro H. inv_bind H as im sa Hnew.
  apply image_new_inv in Hnew. destruct Hnew as (_ & _ & _ & ->).
  inv_bind H as angle sb Hu. apply uniform_inv in Hu. destruct Hu as [_ ->].
  apply ret_ok_inv in H. destruct H as [_ ->]. reflexivity.
Qed.

Lemma paste_outside layer im x0 y0 x y :
  x < x0 \/ x0 + iw im <= x -> px (paste layer im x0 y0) x y = px layer x y.
Proof.
  intro H. unfold paste. cbn [px].
  destruct (x0 <=? x) eqn:E1; [|reflexivity].
  destruct (x <? x0 + iw im) eqn:E2; [|reflexivity].
  apply Z.leb_le in E1. apply Z.ltb_lt in E2. lia.
Qed.

Lemma advance_x_positive fs : 2 <= fs -> 1 <= advance_x fs.
Proof.
  intro H. unfold advance_x. apply py_int_ge_bound; [|lia].
  assert (H2 : (inject_Z 2 <= inject_Z fs)%Q) by (rewrite <- Zle_Qle; exact H).
  change (inject_Z 2) with 2%Q in H2. change (inject_Z 1) with 1%Q. lra.
Qed.

(** The loop never touches the two 20-pixel margins. *)
Lemma render_text_margins f w h fs rot chs :
  2 <= fs ->
  forall x tl s r s',
    render_text f w h fs rot chs x tl s = (Ok r, s') ->
    tape_valid s -> 20 <= x ->
    forall x' y, x' < 20 \/ w - 20 <= x' -> px r x' y = px tl x' y.
Proof.
  intro Hfs. induction chs as [|ch rest IH]; intros x tl s r s' H Hv Hx x' y Hm.
  - apply ret_ok_inv in H. destruct H as [-> _]. reflexivity.
  - cbn [render_text] in H. inv_bind H as g s1 Hg.
    pose proof (tape_valid_same s s1 (render_glyph_same_tape _ _ _ _ _ _ _ _ Hg) Hv)
      as Hv1.
    destruct (x + iw g >? w - 20) eqn:Efit.
    + apply ret_ok_inv in H. destruct H as [-> _]. reflexivity.
    + rewrite Z.gtb_ltb in Efit. apply Z.ltb_ge in Efit.
      inv_bind H as jitter s2 Hj.
      destruct (randint_jitter s1 Hv1) as (Hr & Hrange & _).
      cbv zeta in Hr, Hrange.
      rewrite Hr in Hj. inversion Hj; subst jitter s2; clear Hj.
      pose proof (advance_x_positive fs Hfs) as Hadv.
      assert (Hx' : 20 <= x + (advance_x fs
                               + (-1 + Qfloor (tape s1 (pos s1) * inject_Z 5))))
        by lia.
      rewrite (IH _ _ _ _ _ H Hv1 Hx' x' y Hm).
      apply paste_outside. lia.
Qed.

(** X7: on a tape of unit samples and with a font size of at least 2, the
    text layer is fully transparent in the left margin (x < 20) and in the
    right margin (x >= width - 20): no glyph is ever pasted there. *)
Theorem text_margins_clear p s l s' :
  captcha_run p s = (Ok l, s') ->
  tape_valid s -> 2 <= font_size p ->
  forall x y,
    x < 20 \/ resolve_width p - 20 <= x ->
    px (l_text_layer l) x y = transparent.
Proof.
  intros H Hv Hfs x y Hm. unfold captcha_run in H. cbv zeta in H.
  inv_bind H as base sa Hbase. apply image_new_inv in Hbase.
  destruct Hbase as (_ & _ & _ & ->).
  inv_bind H as tl0 sb Htl0. apply image_new_inv in Htl0.
  destruct Htl0 as (_ & _ & -> & ->).
  inv_bind H as tl sc Htl.
  apply (render_text_margins _ _ _ _ _ _ Hfs) with (x' := x) (y := y) in Htl;
    [|exact Hv|lia|exact Hm].
  inv_bind H as mesh sd Hmesh. inv_bind H as composed se Hdist.
  inv_bind H as nz sf Hnz. inv_bind H as gr sg Hgr.
  inv_bind H as al sh Hal. inv_bind H as ov si Hov.
  apply ret_ok_inv in H. destruct H as [-> _]. cbn [l_text_layer].
  exact Htl.
Qed.

(** X8: the overlay holds nothing but black ink: each of its pixels is
    fully transparent, or black with the line alpha, or black with the dot
    alpha. *)
Theorem overlay_black_ink w h n s ov s' :
  make_overlay w h n s = (Ok ov, s') ->
  forall x y,
    px ov x y = transparent
    \/ px ov x y = mkRGBA 0 0 0 (line_alpha n)
    \/ px ov x y = mkRGBA 0 0 0 (dot_alpha n).
Proof.
  intro H. unfold make_overlay in H.
  inv_bind H as ov0 sa Hnew.
  apply image_new_inv in Hnew. destruct Hnew as (_ & _ & -> & _).
  inv_bind H as ov1 sb Hlines.
  set (I := fun o : Img RGBA => forall x y,
              px o x y = transparent
              \/ px o x y = mkRGBA 0 0 0 (line_alpha n)
              \/ px o x y = mkRGBA 0 0 0 (dot_alpha n)).
  assert (Hl : I ov1).
  { eapply (for_each_inv I); cycle 1; [exact Hlines | |].
    - intros x y. left. reflexivity.
    - intros k a t a' t' Hb Ha. unfold overlay_line in Hb.
      do 5 inv_bind Hb. inv_ret Hb. intros x y. unfold draw_line. cbn [px].
      destruct (line_px _ _ _ _); [right; left; reflexivity | apply Ha]. }
  eapply (for_each_inv I); cycle 1; [exact H | exact Hl |].
  intros k a t a' t' Hb Ha. unfold overlay_dot in Hb.
  do 2 inv_bind Hb. inv_ret Hb. intros x y. unfold draw_point. cbn [px].
  destruct ((x =? _) && (y =? _)); [right; right; reflexivity | apply Ha].
Qed.

End TextAndOverlay.

Lemma text_margins_clear_witness :
  px (l_text_layer (Demo.locals Demo.scenario_a Demo.s0)) 5 10 = transparent.
Proof.
  apply (text_margins_clear (BK := Simple.backend) Demo.scenario_a Demo.s0
           (Demo.locals Demo.scenario_a Demo.s0)
           (snd (Demo.run Demo.scenario_a Demo.s0))).
  - apply run_locals. vm_compute. reflexivity.
  - exact demo_tape_valid.
  - cbn [font_size Demo.scenario_a]. lia.
  - left. lia.
Defined.

Lemma overlay_black_ink_witness :
  px (value_or (Demo.blank transparent)
        (@make_overlay Simple.backend 220 50 1 Demo.s0)) 110 25
  = mkRGBA 0 0 0 (line_alpha 1).
Proof.
  destruct (overlay_black_ink (BK := Simple.backend) 220 50 1 Demo.s0
              (value_or (Demo.blank transparent)
                 (@make_overlay Simple.backend 220 50 1 Demo.s0))
              (snd (@make_overlay Simple.backend 220 50 1 Demo.s0))
              ltac:(apply succeeded_eq; vm_compute; reflexivity) 110 25)
    as [E|[E|E]].
  - exfalso. revert E. vm_compute. discriminate.
  - exact E.
  - exfalso. revert E. vm_compute. discriminate.
Defined.

(* ===================================================================== *)
(** ** Further properties: alpha and colour of the result *)
(* ===================================================================== *)

Lemma py_int_mono_all a b : (a <= b)%Q -> py_int a <= py_int b.
Proof.
  intro H. destruct (Qlt_le_dec a 0) as [La|La].
  - destruct (Qlt_le_dec b 0) as [Lb|Lb].
    + assert (E : py_int (- b) <= py_int (- a)) by (apply py_int_mono; lra).
      rewrite !py_int_opp in E. lia.
    + destruct (py_int_neg a La). pose proof (py_int_nonneg b Lb). lia.
  - apply py_int_mono; assumption.
Qed.

Lemma contrast_mono p q : p <= q -> contrast p <= contrast q.
Proof.
  intro H. unfold contrast.
  assert (py_int ((inject_Z p - 16) * 1.06 + 6)
          <= py_int ((inject_Z q - 16) * 1.06 + 6)); [|lia].
  apply py_int_mono_all.
  assert (inject_Z p <= inject_Z q)%Q by (rewrite <- Zle_Qle; exact H). lra.
Qed.

Lemma clip8_mono a b : a <= b -> clip8 a <= clip8 b.
Proof. unfold clip8. lia. Qed.

Lemma in_range x n : In x (range n) <-> 0 <= x < n.
Proof.
  unfold range. rewrite in_map_iff. split.
  - intros (k & <- & Hk). apply in_seq in Hk. lia.
  - intro H. exists (Z.to_nat x). split; [lia|]. apply in_seq. lia.
Qed.

Lemma contrast_table :
  forallb (fun p =>
             let c := clip8 (contrast p) in
             (if p <=? 11 then c =? 0 else true)
             && (if 251 <=? p then c =? 255 else true)
             && (p - 11 <=? c) && (c <=? p + 4))
          (range 256) = true.
Proof. vm_compute. reflexivity. Qed.

(** X9: the contrast pass on a colour byte [p]: the result is a byte, does
    not decrease when [p] grows, is 0 up to p = 11 and 255 from p = 251 on,
    and lies between p - 11 and p + 4. *)
Theorem contrast_curve p :
  0 <= p <= 255 ->
  let c := clip8 (contrast p) in
  0 <= c <= 255
  /\ (p <= 11 -> c = 0) /\ (251 <= p -> c = 255)
  /\ p - 11 <= c <= p + 4
  /\ forall q, p <= q -> c <= clip8 (contrast q).
Proof.
  intros Hp c.
  pose proof contrast_table as T. rewrite forallb_forall in T.
  specialize (T p ltac:(apply in_range; lia)). cbv zeta in T. fold c in T.
  rewrite !andb_true_iff, !Z.leb_le in T. destruct T as (((T1 & T2) & T3) & T4).
  split; [apply clip8_range|]. split; [|split; [|split; [lia|]]].
  - intro H. apply Z.leb_le in H. rewrite H in T1. now apply Z.eqb_eq.
  - intro H. apply Z.leb_le in H. rewrite H in T2. now apply Z.eqb_eq.
  - intros q Hq. apply clip8_mono. now apply contrast_mono.
Qed.

Lemma contrast_curve_witness :
  clip8 (contrast 128) <= clip8 (contrast 200)
  /\ 128 - 11 <= clip8 (contrast 128) <= 128 + 4.
Proof.
  destruct (contrast_curve 128 ltac:(lia)) as (_ & _ & _ & Hb & Hm).
  split; [apply Hm; lia | exact Hb].
Defined.

(** Compositing black ink over a pixel does not raise its colour value. *)
Lemma mix_black a da d :
  1 <= a <= 255 -> 0 <= da <= 255 -> 0 <= d ->
  let outa255 := a * 255 + da * (255 - a) in
  let coef1 := a * 255 * 255 * 128 / outa255 in
  let coef2 := 255 * 128 - coef1 in
  Z.shiftr (shift_div255 (0 * coef1 + d * coef2 + Z.shiftl 128 7)) 7 <= d.
Proof.
  intros Ha Hda Hd outa255 coef1 coef2.
  assert (Hout : 0 < outa255) by (unfold outa255; nia).
  assert (Hc1 : 0 <= coef1).
  { unfold coef1. apply Z.div_pos; [nia | exact Hout]. }
  assert (Hc2 : d * coef2 <= d * 32640).
  { apply Z.mul_le_mono_nonneg_l; [exact Hd | unfold coef2; lia]. }
  change (Z.shiftl 128 7) with 16384.
  set (t := 0 * coef1 + d * coef2 + 16384).
  assert (Ht : t <= 32640 * d + 16384) by (unfold t; lia).
  unfold shift_div255. rewrite !Z.shiftr_div_pow2 by lia.
  change (2 ^ 8) with 256. change (2 ^ 7) with 128.
  set (sd := (t / 256 + t) / 256).
  assert (H1 : 256 * (t / 256) <= t) by (apply Z.mul_div_le; lia).
  assert (H2 : 256 * sd <= t / 256 + t) by (apply Z.mul_div_le; lia).
  assert (H3 : 128 * (sd / 128) <= sd) by (apply Z.mul_div_le; lia).
  lia.
Qed.

Lemma composite_black_darkens (sel : RGBA -> Z) dst src :
  (sel = chR \/ sel = chG \/ sel = chB) ->
  0 <= chA dst <= 255 -> 0 <= chA src <= 255 ->
  sel src = 0 -> 0 <= sel dst ->
  sel (composite_px dst src) <= sel dst.
Proof.
  intros Hsel Hd Hs Hblack Hpos. unfold composite_px.
  destruct (chA src =? 0) eqn:E; [lia|]. apply Z.eqb_neq in E.
  destruct Hsel as [->|[->| ->]]; cbn [chR chG chB]; rewrite Hblack;
    apply mix_black; lia.
Qed.

Section Result.
Context `{BK : Backend}.

Lemma captcha_run_overlay p s l s' :
  captcha_run p s = (Ok l, s') ->
  exists sa,
    make_overlay (resolve_width p) (height p) (clamp01 (noise p)) sa
    = (Ok (l_overlay l), s').
Proof.
  intro H. unfold captcha_run in H. cbv zeta in H.
  inv_bind H as base sa Hbase. inv_bind H as tl0 sb Htl0.
  inv_bind H as tl sc Htl. inv_bind H as mesh sd Hmesh.
  inv_bind H as composed se Hdist. inv_bind H as nz sf Hnz.
  inv_bind H as gr sg Hgr. inv_bind H as al sh Hal.
  inv_bind H as ov si Hov.
  apply ret_ok_inv in H. destruct H as [-> ->]. cbn [l_overlay].
  exists sh. exact Hov.
Qed.

Lemma base_sub_at_least n g : (0 <= n)%Q -> (0 <= g)%Q -> 10 <= base_sub n g.
Proof.
  intros. unfold base_sub. apply py_int_ge_bound; [|lia].
  change (inject_Z 10) with 10%Q. nra.
Qed.

Lemma min_alpha_at_most n g : (0 <= n)%Q -> (0 <= g)%Q -> min_alpha n g <= 150.
Proof.
  intros. unfold min_alpha.
  assert (py_int (150 - 60 * (n * 0.8 + g * 0.2)) <= 150); [|lia].
  apply py_int_le_bound; [|lia]. change (inject_Z 150) with 150%Q. nra.
Qed.

Lemma alpha_sub_at_most n g (noise_img grid base : Img Z) x y :
  (0 <= n)%Q -> (0 <= g)%Q -> px base x y <= 255 ->
  0 <= px (chops_subtract base (alpha_map n g noise_img grid)) x y <= 245.
Proof.
  intros Hn Hg Hbase.
  unfold chops_subtract, alpha_map, reduction, noise_scaled, chops_add, point.
  cbn [px]. rewrite clip8_py_min_255.
  set (red := clip8 (clip8 (py_int (inject_Z (px noise_img x y) * n * 0.85))
                     + px grid x y)).
  assert (Hred : 0 <= red) by (unfold red; apply clip8_range).
  pose proof (base_sub_at_least n g Hn Hg) as Hb.
  assert (Hf : 10 <= Qfloor (inject_Z (base_sub n g) + inject_Z red * 0.6)).
  { rewrite <- (Qfloor_Z 10). apply Qfloor_resp_le.
    assert (inject_Z 10 <= inject_Z (base_sub n g))%Q by (rewrite <- Zle_Qle; lia).
    assert (inject_Z 0 <= inject_Z red)%Q by (rewrite <- Zle_Qle; lia).
    change (inject_Z 0) with 0%Q in *. change (inject_Z 10) with 10%Q in *. lra. }
  unfold clip8. lia.
Qed.

(** X10: away from ink and overlay the image is never fully opaque: at a
    pixel that the overlay leaves transparent and where text protection does
    not apply (protect_text off, or text-layer alpha at most 16), the
    returned alpha is max(min_alpha, alpha after subtraction), and it lies
    between 100 and 245. *)
Theorem background_alpha p s l s' :
  captcha_run p s = (Ok l, s') ->
  forall x y,
    chA (px (l_overlay l) x y) = 0 ->
    protect_text p = false \/ chA (px (l_text_layer l) x y) <= 16 ->
    chA (px (l_out l) x y)
    = Z.max (min_alpha (clamp01 (noise p)) (clamp01 (grid_strength p)))
            (px (l_alpha_sub l) x y)
    /\ 100 <= chA (px (l_out l) x y) <= 245.
Proof.
  intros Hl x y Hov Hprot.
  pose proof (captcha_run_inv p s l s' Hl) as I. cbv zeta in I.
  destruct I as (_ & _ & _ & _ & _ & _ & _ & _ & _ & Esub & Eal & Eout).
  destruct (clamp01_range (noise p)) as [Hn0 _].
  destruct (clamp01_range (grid_strength p)) as [Hg0 _].
  set (n := clamp01 (noise p)) in *. set (g := clamp01 (grid_strength p)) in *.
  pose proof (min_alpha_range n g) as Hmr.
  pose proof (min_alpha_at_most n g Hn0 Hg0) as Hma.
  assert (Hs : 0 <= px (l_alpha_sub l) x y <= 245).
  { rewrite Esub. apply alpha_sub_at_most; [assumption..|]. cbn [px]. lia. }
  assert (Ea : px (l_alpha l) x y = Z.max (min_alpha n g) (px (l_alpha_sub l) x y)).
  { rewrite Eal. unfold point. cbn [px].
    assert (Ep : px (if protect_text p
                     then chops_lighter (l_alpha_sub l) (forced (l_text_layer l))
                     else l_alpha_sub l) x y
                 = px (l_alpha_sub l) x y).
    { destruct (protect_text p); [|reflexivity].
      destruct Hprot as [Hp|Hp]; [discriminate|].
      unfold chops_lighter, forced, band, point. cbn [px].
      destruct (chA (px (l_text_layer l) x y) >? 16) eqn:E.
      - apply Z.gtb_lt in E. lia.
      - change (clip8 0) with 0. lia. }
    rewrite Ep. unfold clip8. lia. }
  assert (Eo : chA (px (l_out l) x y) = px (l_alpha l) x y).
  { rewrite Eout, finish_alpha. unfold alpha_composite, merge. cbn [px].
    unfold composite_px. rewrite Hov. reflexivity. }
  rewrite Eo, Ea. split; [reflexivity | lia].
Qed.

(** X11: the overlay and the alpha channel never brighten the picture: each
    colour channel of a returned pixel is at most the contrast pass applied
    to that channel of the warped and blurred composite (for a channel value
    that is not negative). *)
Theorem overlay_only_darkens p s l s' :
  captcha_run p s = (Ok l, s') ->
  forall (sel : RGBA -> Z) x y,
    sel = chR \/ sel = chG \/ sel = chB ->
    0 <= sel (px (l_composed l) x y) ->
    sel (px (l_out l) x y) <= clip8 (contrast (sel (px (l_composed l) x y))).
Proof.
  intros Hl sel x y Hsel Hpos.
  pose proof (captcha_run_inv p s l s' Hl) as I. cbv zeta in I.
  destruct I as (_ & _ & _ & _ & _ & _ & _ & _ & (_ & _ & Hova) & _ & Eal & Eout).
  destruct (captcha_run_overlay p s l s' Hl) as (sa & Hmk).
  pose proof (overlay_black_ink _ _ _ _ _ _ Hmk x y) as Hink.
  set (dst := mkRGBA (chR (px (l_composed l) x y)) (chG (px (l_composed l) x y))
                     (chB (px (l_composed l) x y)) (px (l_alpha l) x y)).
  set (src := px (l_overlay l) x y) in *.
  assert (Hd : 0 <= chA dst <= 255).
  { unfold dst. cbn [chA]. rewrite Eal. unfold point. cbn [px]. apply clip8_range. }
  assert (Hblack : sel src = 0).
  { destruct Hsel as [->|[->| ->]]; destruct Hink as [E|[E|E]]; rewrite E;
      reflexivity. }
  assert (Hsd : sel dst = sel (px (l_composed l) x y)).
  { destruct Hsel as [->|[->| ->]]; reflexivity. }
  pose proof (composite_black_darkens sel dst src Hsel Hd (Hova x y) Hblack
                ltac:(rewrite Hsd; exact Hpos)) as Hc.
  rewrite Hsd in Hc.
  assert (Eo : sel (px (l_out l) x y) = clip8 (contrast (sel (composite_px dst src)))).
  { rewrite Eout. unfold finish, merge, point, band, alpha_composite. cbn [px].
    fold dst src. destruct Hsel as [->|[->| ->]]; reflexivity. }
  rewrite Eo. apply clip8_mono. apply contrast_mono. exact Hc.
Qed.

End Result.

Lemma background_alpha_witness :
  100 <= chA (px (l_out (Demo.locals Demo.full_grid Demo.s0)) 0 0) <= 245.
Proof.
  apply (background_alpha (BK := Simple.backend) Demo.full_grid Demo.s0
           (Demo.locals Demo.full_grid Demo.s0)
           (snd (Demo.run Demo.full_grid Demo.s0))).
  - apply run_locals. vm_compute. reflexivity.
  - vm_compute. reflexivity.
  - left. reflexivity.
Defined.

Lemma overlay_only_darkens_witness :
  chR (px (l_out (Demo.locals Demo.scenario_a Demo.s0)) 30 25)
  <= clip8 (contrast (chR (px (l_composed (Demo.locals Demo.scenario_a Demo.s0)) 30 25))).
Proof.
  apply (overlay_only_darkens (BK := Simple.backend) Demo.scenario_a Demo.s0
           (Demo.locals Demo.scenario_a Demo.s0)
           (snd (Demo.run Demo.scenario_a Demo.s0)) ltac:(apply run_locals; vm_compute; reflexivity)
           chR 30 25).
  - left. reflexivity.
  - vm_compute. discriminate.
Defined.
